(** * The InfluxDB output plugin: a shallow embedding of its write path

    The plugin keeps a pool of client connections ([conns]) inside the
    [InfluxDB] configuration struct.  [Connect] builds the pool from the
    configured URLs, [Write] encodes a batch of metrics and hands it to the
    connections in the order of a permutation drawn for that call, stopping at
    the first connection that accepts it.

    Everything the plugin reaches through a package boundary (the InfluxDB
    client library, [net/url], [math/rand], [time], the loggers) is a field of
    the environment record [Env]; the observable effects of a call are
    collected in a trace of events, oldest first. *)

From Stdlib Require Import List String Ascii ZArith Lia Bool Arith Permutation.
Import ListNotations.

Local Open Scope string_scope.
Local Open Scope list_scope.

(** ** Package [strings] *)

Module strings.

(** [strings.HasPrefix(s, prefix)] *)
Definition HasPrefix (s pre : string) : bool := String.prefix pre s.

(** [strings.Contains(s, substr)] *)
Fixpoint Contains (s substr : string) : bool :=
  String.prefix substr s
  || match s with
     | EmptyString => false
     | String _ s' => Contains s' substr
     end.

End strings.

(** ** Errors *)

(** A Go [error] value; [None] in an [option error] is [nil]. *)
Inductive error : Type := errorString (s : string).

Definition Error (e : error) : string :=
  match e with errorString s => s end.

(** [errors.New] *)
Definition errors_New (s : string) : error := errorString s.

(** ** The data the plugin handles *)

(** A field value as the collector hands it over: Go's [interface{}]. *)
Inductive FieldValue : Type :=
| VInt (z : Z)
| VString (s : string)
| VBool (b : bool)
| VOther (go_type : string).

(** One element of [service.Metrics.Data]. *)
Record Metric : Type := {
  Name : string;
  Tags : list (string * string);
  Fields : list (string * FieldValue);
  Time : Z
}.

Record Metrics : Type := { Data : list Metric }.

(** Package [client] (github.com/influxdata/influxdb/client/v2): the types.
    [HAddr] is the field [Addr] of [HTTPConfig]. *)
Module client.

Record UDPConfig : Type := {
  Addr : string;
  PayloadSize : Z
}.

Record HTTPConfig : Type := {
  HAddr : string;
  Username : string;
  Password : string;
  UserAgent : string;
  Timeout : Z
}.

(** A client is the transport it was built for. *)
Inductive Client : Type :=
| UDP (conf : UDPConfig)
| HTTP (conf : HTTPConfig).

Record BatchPointsConfig : Type := {
  Database : string;
  RetentionPolicy : string;
  WriteConsistency : string
}.

(** What [NewPoint] returns for an accepted metric. *)
Record Point : Type := {
  pt_name : string;
  pt_tags : list (string * string);
  pt_fields : list (string * FieldValue);
  pt_time : Z
}.

Record BatchPoints : Type := {
  bp_conf : BatchPointsConfig;
  bp_points : list Point
}.

(** [bp.AddPoint(pt)] *)
Definition AddPoint (bp : BatchPoints) (pt : Point) : BatchPoints :=
  {| bp_conf := bp_conf bp; bp_points := bp_points bp ++ [pt] |}.

(** [client.Query{Command: ...}] *)
Record Query : Type := { Command : string }.

End client.

Import client.

(** The plugin's struct.  [Timeout] is the duration in nanoseconds,
    [UDPPayload] a Go [int]. *)
Record InfluxDB : Type := {
  URL : string;
  URLs : list string;
  iUsername : string;
  iPassword : string;
  iDatabase : string;
  iUserAgent : string;
  iRetentionPolicy : string;
  iWriteConsistency : string;
  iTimeout : Z;
  UDPPayload : Z;
  Precision : string;
  conns : list Client
}.

(** [i.UDPPayload = v] *)
Definition set_UDPPayload (i : InfluxDB) (v : Z) : InfluxDB :=
  {| URL := URL i; URLs := URLs i; iUsername := iUsername i;
     iPassword := iPassword i; iDatabase := iDatabase i;
     iUserAgent := iUserAgent i; iRetentionPolicy := iRetentionPolicy i;
     iWriteConsistency := iWriteConsistency i; iTimeout := iTimeout i;
     UDPPayload := v; Precision := Precision i; conns := conns i |}.

(** [i.conns = cs] *)
Definition set_conns (i : InfluxDB) (cs : list Client) : InfluxDB :=
  {| URL := URL i; URLs := URLs i; iUsername := iUsername i;
     iPassword := iPassword i; iDatabase := iDatabase i;
     iUserAgent := iUserAgent i; iRetentionPolicy := iRetentionPolicy i;
     iWriteConsistency := iWriteConsistency i; iTimeout := iTimeout i;
     UDPPayload := UDPPayload i; Precision := Precision i; conns := cs |}.

(** ** Effects *)

(** What the loggers receive. *)
Inductive logentry : Type :=
| LogPrintln (msg : string)                 (* log.Println(msg) *)
| LogMetric (m : Metric)                    (* log.Println(metric) *)
| VLogError (msg : string) (e : error)      (* VLogger.Error(msg, zap.Error(e)) *)
| VLogDebug (msg : string) (m : Metric).    (* VLogger.Debug(msg, zap.Object(..., m)) *)

(** The calls that leave the process or build a transport, and the log. *)
Inductive event : Type :=
| EvNewUDPClient (conf : UDPConfig)
| EvNewHTTPClient (conf : HTTPConfig)
| EvQuery (c : Client) (q : Query) (r : option error)
| EvWrite (c : Client) (bp : BatchPoints) (r : option error)
| EvLog (l : logentry).

(** The state outside the struct: the history of events, oldest first, and
    the state of the process-wide random source of [math/rand]. *)
Record World : Type := {
  trace : list event;
  rng : Z
}.

Definition emit (ev : event) (w : World) : World :=
  {| trace := trace w ++ [ev]; rng := rng w |}.

Definition set_rng (w : World) (r : Z) : World :=
  {| trace := trace w; rng := r |}.

(** [url.URL], as far as [Connect] reads it. *)
Record ParsedURL : Type := { Host : string }.

(** The packages behind the plugin.  An answer that depends on the network
    takes the history so far, so that a server may answer differently after a
    schema creation or a failed write. *)
Record Env : Type := {
  url_Parse : string -> error + ParsedURL;
  client_UDPPayloadSize : Z;
  udp_client_error : list event -> UDPConfig -> option error;
  http_client_error : HTTPConfig -> option error;
  batch_points_error : BatchPointsConfig -> option error;
  client_NewPoint :
    string -> list (string * string) -> list (string * FieldValue) -> Z ->
    error + Point;
  conn_Query : list event -> Client -> Query -> option error;
  conn_Write : list event -> Client -> BatchPoints -> option error;
  time_Now_UnixNano : list event -> Z;
  rand_Perm : Z -> nat -> list nat * Z
}.

(** The double quote and the line feed, for the two literals that hold them. *)
Definition dquote : string := String (ascii_of_nat 34) EmptyString.
Definition newline : string := String (ascii_of_nat 10) EmptyString.

(** How a call of [Write] ends: it returns its [error], or the index
    expression [i.conns[n]] is out of range and the goroutine panics. *)
Inductive outcome : Type :=
| Return (err : option error)
| IndexPanic.

Section Plugin.

Variable E : Env.

(** [client.NewUDPClient(conf)] *)
Definition NewUDPClient (conf : UDPConfig) (w : World)
  : (error + Client) * World :=
  let w' := emit (EvNewUDPClient conf) w in
  match udp_client_error E (trace w) conf with
  | Some err => (inl err, w')
  | None => (inr (UDP conf), w')
  end.

(** [client.NewHTTPClient(conf)] *)
Definition NewHTTPClient (conf : HTTPConfig) (w : World)
  : (error + Client) * World :=
  let w' := emit (EvNewHTTPClient conf) w in
  match http_client_error E conf with
  | Some err => (inl err, w')
  | None => (inr (HTTP conf), w')
  end.

(** [client.NewBatchPoints(conf)] *)
Definition NewBatchPoints (conf : BatchPointsConfig) : error + BatchPoints :=
  match batch_points_error E conf with
  | Some err => inl err
  | None => inr {| bp_conf := conf; bp_points := [] |}
  end.

(** [c.Query(q)]; the response is dropped by the only caller. *)
Definition Query_ (c : Client) (q : Query) (w : World)
  : option error * World :=
  let r := conn_Query E (trace w) c q in
  (r, emit (EvQuery c q r) w).

(** [c.Write(bp)] *)
Definition Write_ (c : Client) (bp : BatchPoints) (w : World)
  : option error * World :=
  let r := conn_Write E (trace w) c bp in
  (r, emit (EvWrite c bp r) w).

Definition log (l : logentry) (w : World) : World := emit (EvLog l) w.

(** [fmt.Sprintf("CREATE DATABASE \"%s\"", database)] *)
Definition create_database_command (database : string) : string :=
  "CREATE DATABASE " ++ dquote ++ database ++ dquote.

(** [func createDatabase(c client.Client, database string) error] *)
Definition createDatabase (c : Client) (database : string) (w : World)
  : option error * World :=
  Query_ c {| Command := create_database_command database |} w.

(** The first two statements of [Connect]: copy [i.URLs], then append the
    single [i.URL] of old configuration files when it is set. *)
Definition connect_urls (i : InfluxDB) : list string :=
  let urls := fold_left (fun urls u => urls ++ [u]) (URLs i) [] in
  if String.eqb (URL i) EmptyString then urls else urls ++ [URL i].

(** The loop of [Connect] over [urls], with the local [conns] it grows.
    [inl err] is [return err] from inside the loop. *)
Fixpoint connect_loop (urls : list string) (cs : list Client)
         (i : InfluxDB) (w : World)
  : (error + list Client) * InfluxDB * World :=
  match urls with
  | [] => (inr cs, i, w)
  | u :: rest =>
    if strings.HasPrefix u "udp" then
      match url_Parse E u with
      | inl err => (inl err, i, w)
      | inr parsed_url =>
        let i :=
          if (UDPPayload i =? 0)%Z
          then set_UDPPayload i (client_UDPPayloadSize E)
          else i in
        match NewUDPClient {| Addr := Host parsed_url;
                              PayloadSize := UDPPayload i |} w with
        | (inl err, w) => (inl err, i, w)
        | (inr c, w) => connect_loop rest (cs ++ [c]) i w
        end
      end
    else
      match NewHTTPClient {| HAddr := u;
                             Username := iUsername i;
                             Password := iPassword i;
                             UserAgent := iUserAgent i;
                             Timeout := iTimeout i |} w with
      | (inl err, w) => (inl err, i, w)
      | (inr c, w) =>
        match createDatabase c (iDatabase i) w with
        | (Some err, w) =>
          let w :=
            log (LogPrintln ("Database creation failed: " ++ Error err)) w in
          connect_loop rest cs i w
        | (None, w) => connect_loop rest (cs ++ [c]) i w
        end
      end
  end.

(** [func (i *InfluxDB) Connect() error] *)
Definition Connect (i : InfluxDB) (w : World)
  : option error * InfluxDB * World :=
  match connect_loop (connect_urls i) [] i w with
  | (inl err, i, w) => (Some err, i, w)
  | (inr cs, i, w) =>
    (None, set_conns i cs, set_rng w (time_Now_UnixNano E (trace w)))
  end.

(** The loop of [Write] over [metrics.Data]. *)
Fixpoint encode_loop (ms : list Metric) (bp : BatchPoints) (w : World)
  : (error + BatchPoints) * World :=
  match ms with
  | [] => (inr bp, w)
  | metric :: rest =>
    match client_NewPoint E (Name metric) (Tags metric) (Fields metric)
                          (Time metric) with
    | inl err => (inl err, log (VLogError "InfluxDB Write" err) w)
    | inr pt =>
      let w := log (VLogDebug "InfluxDB Write" metric) w in
      let bp := AddPoint bp pt in
      let w := log (LogMetric metric) w in
      encode_loop rest bp w
    end
  end.

Definition not_found_message (database : string) : string :=
  "ERROR: Database " ++ database
    ++ " not found and failed to recreate" ++ newline.

(** The loop of [Write] over the permutation [p]; [err] is the variable
    that a successful write sets to [nil] before [break]. *)
Fixpoint write_loop (p : list nat) (i : InfluxDB) (bp : BatchPoints)
         (err : option error) (w : World) : outcome * World :=
  match p with
  | [] => (Return err, w)
  | n :: rest =>
    match nth_error (conns i) n with
    | None => (IndexPanic, w)
    | Some c =>
      match Write_ c bp w with
      | (Some e, w) =>
        let w := log (VLogError "InfluxDB Write" e) w in
        let w :=
          if strings.Contains (Error e) "database not found" then
            match createDatabase c (iDatabase i) w with
            | (Some errc, w) =>
              log (VLogError (not_found_message (iDatabase i)) errc) w
            | (None, w) => w
            end
          else w in
        write_loop rest i bp err w
      | (None, w) => (Return None, w)
      end
    end
  end.

Definition pool_exhausted : error :=
  errors_New "Could not write to any InfluxDB server in cluster".

Definition batch_config (i : InfluxDB) : BatchPointsConfig :=
  {| Database := iDatabase i;
     RetentionPolicy := iRetentionPolicy i;
     WriteConsistency := iWriteConsistency i |}.

(** [func (i *InfluxDB) Write(metrics service.Metrics) error] *)
Definition Write (i : InfluxDB) (metrics : Metrics) (w : World)
  : outcome * InfluxDB * World :=
  let '(cerr, i, w) :=
    if (List.length (conns i) =? 0)%nat then Connect i w else (None, i, w) in
  match cerr with
  | Some err => (Return (Some err), i, w)
  | None =>
    match NewBatchPoints (batch_config i) with
    | inl err => (Return (Some err), i, w)
    | inr bp =>
      match encode_loop (Data metrics) bp w with
      | (inl err, w) => (Return (Some err), i, w)
      | (inr bp, w) =>
        let err := Some pool_exhausted in
        let '(p, r) := rand_Perm E (rng w) (List.length (conns i)) in
        let w := set_rng w r in
        let '(o, w) := write_loop p i bp err w in
        (o, i, w)
      end
    end
  end.

End Plugin.

(** ** What a trace shows *)

(** The connections a stretch of the trace wrote a batch to, in order. *)
Definition written_to (t : list event) : list Client :=
  flat_map (fun ev => match ev with EvWrite c _ _ => [c] | _ => [] end) t.

(** Those of them that accepted the batch. *)
Definition deliveries (t : list event) : list Client :=
  flat_map (fun ev => match ev with EvWrite c _ None => [c] | _ => [] end) t.

(** The connections that were sent anything, a query or a batch. *)
Definition contacted (t : list event) : list Client :=
  flat_map (fun ev => match ev with
                      | EvWrite c _ _ => [c]
                      | EvQuery c _ _ => [c]
                      | _ => []
                      end) t.

(** The transports that were constructed. *)
Definition constructed (t : list event) : list event :=
  filter (fun ev => match ev with
                    | EvNewUDPClient _ | EvNewHTTPClient _ => true
                    | _ => false
                    end) t.

(** The connections a build accepted: every datagram client, and every
    stream client whose creation query went through. *)
Definition accepted (t : list event) : list Client :=
  flat_map (fun ev => match ev with
                      | EvNewUDPClient conf => [UDP conf]
                      | EvQuery c _ None => [c]
                      | _ => []
                      end) t.


Definition is_log (ev : event) : bool :=
  match ev with EvLog _ => true | _ => false end.

(** The events of [w'] that are not yet in [w]. *)
Definition since (w w' : World) : list event :=
  skipn (List.length (trace w)) (trace w').

(** The fields of the struct that come from the configuration file, the
    payload size apart. *)
Definition same_settings (i i' : InfluxDB) : Prop :=
  URL i' = URL i /\ URLs i' = URLs i /\
  iUsername i' = iUsername i /\ iPassword i' = iPassword i /\
  iDatabase i' = iDatabase i /\ iUserAgent i' = iUserAgent i /\
  iRetentionPolicy i' = iRetentionPolicy i /\
  iWriteConsistency i' = iWriteConsistency i /\
  iTimeout i' = iTimeout i /\ Precision i' = Precision i.

(** The contract of [rand.Perm]: a permutation of [0, n). *)
Definition perm_contract (E : Env) : Prop :=
  forall r n, Permutation (fst (rand_Perm E r n)) (seq 0 n).

(** ** Auxiliary definitions *)

Section Derived.

Variable E : Env.

(** [client.NewPoint] applied to the four fields of a metric. *)
Definition point_of (m : Metric) : error + Point :=
  client_NewPoint E (Name m) (Tags m) (Fields m) (Time m).

Definition encodable (m : Metric) : bool :=
  match point_of m with inr _ => true | inl _ => false end.

(** The payload size [Connect] gives its datagram clients. *)
Definition effective_payload (i : InfluxDB) : Z :=
  if (UDPPayload i =? 0)%Z then client_UDPPayloadSize E else UDPPayload i.

(** The struct after the assignment guarded by [i.UDPPayload == 0]. *)
Definition defaulted (i : InfluxDB) : InfluxDB :=
  if (UDPPayload i =? 0)%Z
  then set_UDPPayload i (client_UDPPayloadSize E)
  else i.

(** The first statement of [Write]: rebuild the pool when it is empty. *)
Definition reconnect (i : InfluxDB) (w : World)
  : option error * InfluxDB * World :=
  if (List.length (conns i) =? 0)%nat then Connect E i w else (None, i, w).

(** The statements after it: encode the batch and dispatch it. *)
Definition write_batch (i : InfluxDB) (metrics : Metrics) (w : World)
  : outcome * InfluxDB * World :=
  match NewBatchPoints E (batch_config i) with
  | inl err => (Return (Some err), i, w)
  | inr bp =>
    match encode_loop E (Data metrics) bp w with
    | (inl err, w) => (Return (Some err), i, w)
    | (inr bp, w) =>
      let '(p, r) := rand_Perm E (rng w) (List.length (conns i)) in
      let '(o, w) :=
        write_loop E p i bp (Some pool_exhausted) (set_rng w r) in
      (o, i, w)
    end
  end.

(** The connection the dispatch loop writes to first when it walks the
    order [q]. *)
Definition first_tried (i : InfluxDB) (bp : BatchPoints) (w : World)
           (q : list nat) : option Client :=
  hd_error
    (written_to
       (since w (snd (write_loop E q i bp (Some pool_exhausted) w)))).

End Derived.

(** The configuration [Connect] passes to [NewHTTPClient] for [u]. *)
Definition http_config (i : InfluxDB) (u : string) : HTTPConfig :=
  {| HAddr := u; Username := iUsername i; Password := iPassword i;
     UserAgent := iUserAgent i; Timeout := iTimeout i |}.

(** [u] is refused with [err]: a datagram URL by [url.Parse], any other by
    the constructor of the stream client, which parses it itself. *)
Definition unparsable (E : Env) (i : InfluxDB) (u : string) (err : error)
  : Prop :=
  if strings.HasPrefix u "udp"
  then url_Parse E u = inl err
  else http_client_error E (http_config i u) = Some err.

(** Both constructors accept [u]. *)
Definition constructible (E : Env) (i : InfluxDB) (u : string) : Prop :=
  if strings.HasPrefix u "udp"
  then exists pu,
      url_Parse E u = inr pu /\
      forall h, udp_client_error E h
                  {| Addr := Host pu; PayloadSize := effective_payload E i |}
                = None
  else http_client_error E (http_config i u) = None.


Lemma Client_eq_dec (a b : Client) : {a = b} + {a <> b}.
Proof.
  repeat decide equality; try apply string_dec; try apply Z.eq_dec.
Defined.

Definition is_client (c : Client) (o : option Client) : bool :=
  match o with
  | Some c' => if Client_eq_dec c c' then true else false
  | None => false
  end.

(** ** The shape of a dispatch trace *)

Section DispatchTrace.

Variable db : string.
Variable bp : BatchPoints.

(** What follows a write that failed with the not-found text: the creation
    query on the same connection, and a log entry when that fails too. *)
Definition recreate_events (c : Client) (rq : option error) : list event :=
  EvQuery c {| Command := create_database_command db |} rq ::
  match rq with
  | Some errc => [EvLog (VLogError (not_found_message db) errc)]
  | None => []
  end.

(** One failed attempt on [c]. *)
Definition failed_attempt (c : Client) (e : error) (rq : option error)
  : list event :=
  EvWrite c bp (Some e) :: EvLog (VLogError "InfluxDB Write" e) ::
  (if strings.Contains (Error e) "database not found"
   then recreate_events c rq else []).

(** [dispatch_events cs evs b]: [evs] is a run of failed attempts, closed by
    a delivery when [b]; [cs] are the connections tried, in order. *)
Inductive dispatch_events : list Client -> list event -> bool -> Prop :=
| dispatch_exhausted : dispatch_events [] [] false
| dispatch_delivered c : dispatch_events [c] [EvWrite c bp None] true
| dispatch_failed c e rq cs evs b :
    dispatch_events cs evs b ->
    dispatch_events (c :: cs) (failed_attempt c e rq ++ evs) b.

End DispatchTrace.

(** ** The shape of a build trace *)

Section ConnectTrace.

Variable E : Env.
Variable db : string.

Definition create_query : Query :=
  {| Command := create_database_command db |}.

Definition dropped_message (e : error) : event :=
  EvLog (LogPrintln ("Database creation failed: " ++ Error e)).

(** [connect_events evs built aborted]: [evs] is what a run of the loop
    leaves, endpoint after endpoint; [built] are the connections appended to
    the pool under construction; [aborted] tells that a constructor refused
    its endpoint, which ends the run. *)
Inductive connect_events : list event -> list Client -> bool -> Prop :=
| connect_done : connect_events [] [] false
| connect_parse_failed : connect_events [] [] true
| connect_udp conf evs cs a :
    connect_events evs cs a ->
    connect_events (EvNewUDPClient conf :: evs) (UDP conf :: cs) a
| connect_udp_refused conf :
    connect_events [EvNewUDPClient conf] [] true
| connect_http conf evs cs a :
    http_client_error E conf = None ->
    connect_events evs cs a ->
    connect_events
      (EvNewHTTPClient conf :: EvQuery (HTTP conf) create_query None :: evs)
      (HTTP conf :: cs) a
| connect_http_dropped conf e evs cs a :
    http_client_error E conf = None ->
    connect_events evs cs a ->
    connect_events
      (EvNewHTTPClient conf :: EvQuery (HTTP conf) create_query (Some e)
         :: dropped_message e :: evs)
      cs a
| connect_http_refused conf :
    http_client_error E conf <> None ->
    connect_events [EvNewHTTPClient conf] [] true.

End ConnectTrace.

(** ** All the orders a call can draw *)

(** [l] without the first occurrence of [x]. *)
Fixpoint remove_one (x : nat) (l : list nat) : list nat :=
  match l with
  | [] => []
  | y :: t => if (x =? y)%nat then t else y :: remove_one x t
  end.

(** The arrangements of [l], for [fuel] the length of [l]: choose the first
    element, then arrange the others. *)
Fixpoint perms_of (fuel : nat) (l : list nat) : list (list nat) :=
  match fuel with
  | 0 => [[]]
  | S f => flat_map (fun x => map (cons x) (perms_of f (remove_one x l))) l
  end.

(** Every result [rand.Perm(n)] may return. *)
Definition all_perms (n : nat) : list (list nat) := perms_of n (seq 0 n).


(** ** A concrete deployment *)

Module Demo.

(** The hosts are named after what they do: a host with [down] in its name
    refuses everything, one with [nodb] answers a write with the not-found
    text, any other accepts. *)
Definition refuses (c : Client) : bool :=
  match c with
  | UDP conf => strings.Contains (Addr conf) "down"
  | HTTP conf => strings.Contains (HAddr conf) "down"
  end.

Definition lacks_database (c : Client) : bool :=
  match c with
  | UDP conf => false
  | HTTP conf => strings.Contains (HAddr conf) "nodb"
  end.

Definition supported (f : string * FieldValue) : bool :=
  match snd f with VOther _ => false | _ => true end.

(** A rotation of [0, n) by the state of the source. *)
Definition rotation (r : Z) (n : nat) : list nat * Z :=
  let k := Nat.modulo (Z.to_nat r) n in
  (skipn k (seq 0 n) ++ firstn k (seq 0 n), (r + 1)%Z).

Definition env : Env := {|
  url_Parse := fun u =>
    if strings.Contains u "%"
    then inl (errorString "parse: invalid URL escape")
    else inr {| Host := substring 6 (String.length u - 6) u |};
  client_UDPPayloadSize := 512;
  udp_client_error := fun _ _ => None;
  http_client_error := fun conf =>
    if strings.Contains (HAddr conf) "%"
    then Some (errorString "parse: invalid URL escape")
    else None;
  batch_points_error := fun _ => None;
  client_NewPoint := fun name tags fields t =>
    if forallb supported fields
    then inr {| pt_name := name; pt_tags := tags;
                pt_fields := fields; pt_time := t |}
    else inl (errorString "unsupported field type");
  conn_Query := fun _ c _ =>
    if refuses c then Some (errorString "connection refused") else None;
  conn_Write := fun _ c _ =>
    if refuses c then Some (errorString "connection refused")
    else if lacks_database c
         then Some (errorString "database not found: telegraf")
         else None;
  time_Now_UnixNano := fun t => Z.of_nat (List.length t);
  rand_Perm := rotation
|}.

Definition config (urls : list string) : InfluxDB := {|
  URL := EmptyString; URLs := urls;
  iUsername := "telegraf"; iPassword := "secret"; iDatabase := "telegraf";
  iUserAgent := "telegraf"; iRetentionPolicy := EmptyString;
  iWriteConsistency := "any"; iTimeout := 5000000000;
  UDPPayload := 0; Precision := EmptyString; conns := []
|}.

Definition start : World := {| trace := []; rng := 0 |}.

Definition cpu : Metric := {|
  Name := "cpu"; Tags := [("host", "a")];
  Fields := [("usage", VInt 42)]; Time := 1
|}.

Definition odd : Metric := {|
  Name := "odd"; Tags := [];
  Fields := [("value", VOther "chan int")]; Time := 2
|}.

(** The stream client [Connect] builds for [addr] under [config]. *)
Definition http (addr : string) : Client :=
  HTTP {| HAddr := addr; Username := "telegraf"; Password := "secret";
          UserAgent := "telegraf"; Timeout := 5000000000 |}.

(** The datagram client [Connect] builds for the host [addr]. *)
Definition udp (addr : string) : Client :=
  UDP {| Addr := addr; PayloadSize := 512 |}.

(** A struct whose pool has been built. *)
Definition pool (urls : list string) (cs : list Client) : InfluxDB :=
  set_conns (config urls) cs.

(** The batch the encoder makes of [cpu]. *)
Definition cpu_batch : BatchPoints :=
  {| bp_conf := batch_config (config []);
     bp_points := [ {| pt_name := "cpu"; pt_tags := [("host", "a")];
                       pt_fields := [("usage", VInt 42)]; pt_time := 1 |} ] |}.

End Demo.

(** ** Shutdown and startup *)

Section Lifecycle.

(** [c.Close()]: the answer may depend on what the connections went through
    and on the connections closed before. *)
Variable conn_Close : list event -> list Client -> Client -> option error.

(** The loop of [Close] over [i.conns], with the text [errS] it grows;
    [closed] are the connections [Close] was called on so far, in order. *)
Fixpoint close_loop (cs : list Client) (errS : string) (w : World)
         (closed : list Client) : string * list Client :=
  match cs with
  | [] => (errS, closed)
  | c :: rest =>
    match conn_Close (trace w) closed c with
    | Some err => close_loop rest (errS ++ Error err) w (closed ++ [c])
    | None => close_loop rest errS w (closed ++ [c])
    end
  end.

(** [fmt.Errorf("output influxdb close failed: %s", errS)] *)
Definition close_failed (errS : string) : error :=
  errorString ("output influxdb close failed: " ++ errS).

(** [func (i *InfluxDB) Close() error] *)
Definition Close (i : InfluxDB) (w : World) (closed : list Client)
  : option error * list Client :=
  let '(errS, closed) := close_loop (conns i) EmptyString w closed in
  if String.eqb errS EmptyString
  then (None, closed)
  else (Some (close_failed errS), closed).

End Lifecycle.

(** How [Init] ends: it returns, or [log.Fatal] prints [msg] and the
    process exits. *)
Inductive startup : Type :=
| Running
| Exited (msg : string).

(** [func (i *InfluxDB) Init(stop chan bool)] *)
Definition Init (E : Env) (i : InfluxDB) (w : World)
  : startup * InfluxDB * World :=
  match Connect E i w with
  | (Some err, i, w) =>
    (Exited ("InfluxDB Connect failed, err message is " ++ Error err), i, w)
  | (None, i, w) => (Running, i, w)
  end.

(** [func (i *InfluxDB) Compute(metrics service.Metrics) error] *)
Definition Compute (E : Env) (i : InfluxDB) (metrics : Metrics) (w : World)
  : outcome * InfluxDB * World :=
  Write E i metrics w.

(** The transport [Connect] constructs for [u] when [url.Parse] accepts
    it or it is a stream URL. *)
Definition transport_for (E : Env) (i : InfluxDB) (u : string)
  : option event :=
  if strings.HasPrefix u "udp" then
    match url_Parse E u with
    | inl _ => None
    | inr pu =>
      Some (EvNewUDPClient {| Addr := Host pu;
                              PayloadSize := effective_payload E i |})
    end
  else Some (EvNewHTTPClient (http_config i u)).


(** The queries of a stretch of the trace, with the connections asked. *)
Definition queries (t : list event) : list (Client * Query) :=
  flat_map (fun ev => match ev with
                      | EvQuery c q _ => [(c, q)]
                      | _ => []
                      end) t.

(** The batches a stretch of the trace handed to connections. *)
Definition batches (t : list event) : list BatchPoints :=
  flat_map (fun ev => match ev with
                      | EvWrite _ bp _ => [bp]
                      | _ => []
                      end) t.

(** A deployment for shutdown: closing a connection to a host with [down]
    in its name fails. *)
Module Shutdown.

Definition close_answer (t : list event) (closed : list Client) (c : Client)
  : option error :=
  if Demo.refuses c
  then Some (errorString "use of closed network connection")
  else None.

End Shutdown.

(** * Facts *)

(** The rotations of the deployment meet the contract of [rand.Perm]. *)
Lemma rotation_perm : perm_contract Demo.env.
Proof.
  intros r n. simpl.
  rewrite Permutation_app_comm, firstn_skipn. apply Permutation_refl.
Qed.

(** ** Basic facts *)

Lemma written_to_app (a b : list event) :
  written_to (a ++ b) = written_to a ++ written_to b.
Proof. apply flat_map_app. Qed.

Lemma deliveries_app (a b : list event) :
  deliveries (a ++ b) = deliveries a ++ deliveries b.
Proof. apply flat_map_app. Qed.


Lemma constructed_app (a b : list event) :
  constructed (a ++ b) = constructed a ++ constructed b.
Proof. apply filter_app. Qed.

Lemma logs_written_to (t : list event) :
  forallb is_log t = true -> written_to t = [].
Proof.
  induction t as [|ev t IH]; simpl; [reflexivity|].
  destruct ev; simpl; try discriminate. exact IH.
Qed.

Lemma logs_contacted (t : list event) :
  forallb is_log t = true -> contacted t = [].
Proof.
  induction t as [|ev t IH]; simpl; [reflexivity|].
  destruct ev; simpl; try discriminate. exact IH.
Qed.

Lemma logs_constructed (t : list event) :
  forallb is_log t = true -> constructed t = [].
Proof.
  induction t as [|ev t IH]; simpl; [reflexivity|].
  destruct ev; simpl; try discriminate. exact IH.
Qed.

Lemma deliveries_incl_written (t : list event) :
  List.length (deliveries t) <= List.length (written_to t).
Proof.
  induction t as [|ev t IH]; simpl; [lia|].
  destruct ev as [| | |c b [e|]|]; simpl; lia.
Qed.

Lemma fold_append_id (l acc : list string) :
  fold_left (fun urls u => urls ++ [u]) l acc = acc ++ l.
Proof.
  revert acc; induction l as [|u l IH]; intros acc; simpl.
  - now rewrite app_nil_r.
  - rewrite IH, <- app_assoc. reflexivity.
Qed.

(** [Connect] walks [i.URLs], then [i.URL] when it is not empty. *)
Lemma connect_urls_eq (i : InfluxDB) :
  connect_urls i =
  URLs i ++ (if String.eqb (URL i) EmptyString then [] else [URL i]).
Proof.
  unfold connect_urls. rewrite fold_append_id. simpl.
  destruct (String.eqb (URL i) EmptyString); [now rewrite app_nil_r|reflexivity].
Qed.

(** ** The encoder loop *)

Section Encoder.

Variable E : Env.

(** The encoder only logs: it leaves the random source alone and reaches no
    connection. *)
Lemma encode_loop_events (ms : list Metric) :
  forall bp w r w',
    encode_loop E ms bp w = (r, w') ->
    exists evs,
      trace w' = trace w ++ evs /\ rng w' = rng w /\
      forallb is_log evs = true.
Proof.
  induction ms as [|m ms IH]; simpl; intros bp w r w' H.
  - inversion H; subst. exists []. now rewrite app_nil_r.
  - destruct (client_NewPoint E (Name m) (Tags m) (Fields m) (Time m))
      as [err|pt].
    + inversion H; subst. eexists; simpl; repeat split.
    + apply IH in H. destruct H as (evs & Ht & Hr & Hl).
      exists (EvLog (VLogDebug "InfluxDB Write" m) :: EvLog (LogMetric m) :: evs).
      simpl in *. rewrite Ht, <- !app_assoc. auto.
Qed.

(** A batch of encodable metrics is encoded whole. *)
Lemma encode_loop_accepts (ms : list Metric) :
  forallb (encodable E) ms = true ->
  forall bp w, exists bp' w', encode_loop E ms bp w = (inr bp', w').
Proof.
  induction ms as [|m ms IH]; simpl; intros Hok bp w.
  - eauto.
  - apply andb_true_iff in Hok. destruct Hok as [Hm Hms].
    unfold encodable, point_of in Hm.
    destruct (client_NewPoint E (Name m) (Tags m) (Fields m) (Time m));
      [discriminate|]. apply IH; assumption.
Qed.

(** A batch with a metric that [NewPoint] rejects is not encoded: the loop
    returns the error of the first such metric. *)
Lemma encode_loop_rejects (ms : list Metric) :
  forallb (encodable E) ms = false ->
  forall bp w, exists good m rest e w',
    ms = good ++ m :: rest /\ forallb (encodable E) good = true /\
    point_of E m = inl e /\
    encode_loop E ms bp w = (inl e, w').
Proof.
  induction ms as [|m ms IH]; simpl; intros Hbad bp w; [discriminate|].
  unfold encodable at 1 in Hbad. unfold point_of in *.
  destruct (client_NewPoint E (Name m) (Tags m) (Fields m) (Time m))
    as [err|pt] eqn:Hp.
  - exists [], m, ms, err. eexists. unfold point_of. simpl. auto.
  - simpl in Hbad.
    destruct (IH Hbad (AddPoint bp pt)
                 (log (LogMetric m) (log (VLogDebug "InfluxDB Write" m) w)))
      as (good & m' & rest & e & w' & -> & Hg & Hm' & Hrun).
    exists (m :: good), m', rest, e, w'. simpl.
    unfold encodable at 1, point_of. rewrite Hp. simpl. auto.
Qed.

End Encoder.

(** ** The dispatch loop *)

Section Dispatcher.

Variable E : Env.

(** Every run of the loop leaves a dispatch trace over a prefix of the
    permutation. *)
Lemma write_loop_events (p : list nat) :
  forall i bp err w o w',
    write_loop E p i bp err w = (o, w') ->
    exists k cs evs b,
      trace w' = trace w ++ evs /\ rng w' = rng w /\
      dispatch_events (iDatabase i) bp cs evs b /\
      map Some cs = map (nth_error (conns i)) (firstn k p) /\
      k <= List.length p /\
      match o with
      | Return r => if b then r = None else r = err /\ k = List.length p
      | IndexPanic =>
        b = false /\
        exists n, nth_error p k = Some n /\ nth_error (conns i) n = None
      end.
Proof.
  induction p as [|n rest IH]; simpl; intros i bp err w o w' H.
  - inversion H; subst. exists 0, [], [], false.
    rewrite app_nil_r. repeat split; auto. constructor.
  - destruct (nth_error (conns i) n) as [c|] eqn:Hn.
    + destruct (conn_Write E (trace w) c bp) as [e|] eqn:Hw.
      * apply IH in H.
        destruct H as (k & cs & evs & b & Ht & Hr & Hd & Hm & Hk & Ho).
        set (rq := conn_Query E
                     (trace w ++ [EvWrite c bp (Some e)]
                        ++ [EvLog (VLogError "InfluxDB Write" e)])
                     c {| Command := create_database_command (iDatabase i) |}).
        exists (S k), (c :: cs),
          (failed_attempt (iDatabase i) bp c e rq ++ evs), b.
        split; [|split; [|split; [|split; [|split]]]].
        -- rewrite Ht. unfold failed_attempt, recreate_events.
           destruct (strings.Contains (Error e) "database not found").
           ++ unfold createDatabase, Query_, log. simpl.
              rewrite <- !app_assoc. fold rq.
              destruct rq; simpl; rewrite <- ?app_assoc; reflexivity.
           ++ simpl. rewrite <- !app_assoc. reflexivity.
        -- rewrite Hr.
           destruct (strings.Contains (Error e) "database not found");
             [|reflexivity].
           unfold createDatabase, Query_, log. simpl.
           match goal with |- context [conn_Query ?a ?b ?c ?d] =>
             destruct (conn_Query a b c d) end; reflexivity.
        -- constructor; assumption.
        -- simpl. rewrite Hn, Hm. reflexivity.
        -- lia.
        -- destruct o; [destruct b|]; intuition (try lia; auto).
      * inversion H; subst. exists 1, [c], [EvWrite c bp None], true.
        simpl. rewrite Hn. repeat split; auto; try lia. constructor.
    + inversion H; subst. exists 0, [], [], false.
      rewrite app_nil_r. simpl. repeat split; auto; try lia.
      * constructor.
      * exists n. auto.
Qed.

End Dispatcher.

(** ** The pool builder *)

Lemma same_settings_refl (i : InfluxDB) : same_settings i i.
Proof. repeat split. Qed.

Lemma same_settings_trans (a b c : InfluxDB) :
  same_settings a b -> same_settings b c -> same_settings a c.
Proof.
  unfold same_settings. intros H1 H2.
  repeat match goal with H : _ /\ _ |- _ => destruct H end.
  repeat split; congruence.
Qed.

Section ConnectTraceFacts.

Variable E : Env.
Variable db : string.

Lemma connect_events_writes evs cs a :
  connect_events E db evs cs a -> written_to evs = [].
Proof. induction 1; simpl; auto. Qed.

Lemma connect_events_accepted evs cs :
  connect_events E db evs cs false -> accepted evs = cs.
Proof.
  intros H. remember false as a eqn:Ha.
  induction H; simpl; try discriminate; auto; f_equal; auto.
Qed.

(** A stream client that was constructed is sent the creation query at
    once; when the query fails, the failure is logged next. *)
Lemma connect_events_create evs cs a :
  connect_events E db evs cs a ->
  forall pre conf post,
    evs = pre ++ EvNewHTTPClient conf :: post ->
    http_client_error E conf = None ->
    exists rq post',
      post = EvQuery (HTTP conf) (create_query db) rq :: post' /\
      forall e, rq = Some e -> exists post'', post' = dropped_message e :: post''.
Proof.
  induction 1 as [| |c0 evs cs a H IH|c0|c0 evs cs a Hc H IH
                  |c0 e0 evs cs a Hc H IH|c0 Hc];
    intros pre conf post Heq Hok.
  - destruct pre; discriminate.
  - destruct pre; discriminate.
  - destruct pre as [|x pre]; [discriminate|].
    inversion Heq; subst. eapply IH; eauto.
  - destruct pre as [|x [|y pre]]; discriminate.
  - destruct pre as [|x [|y pre]].
    + inversion Heq; subst. eexists _, _. split; [reflexivity|].
      intros e He; discriminate.
    + discriminate.
    + inversion Heq; subst. eapply IH; eauto.
  - destruct pre as [|x [|y [|z pre]]].
    + inversion Heq; subst. eexists _, _. split; [reflexivity|].
      intros e He. inversion He; subst. eauto.
    + discriminate.
    + discriminate.
    + inversion Heq; subst. eapply IH; eauto.
  - destruct pre as [|x [|y pre]]; try discriminate.
    inversion Heq; subst. contradiction.
Qed.

End ConnectTraceFacts.

Section Resolver.

Variable E : Env.

Lemma defaulted_payload (i : InfluxDB) :
  UDPPayload (defaulted E i) = effective_payload E i.
Proof.
  unfold defaulted, effective_payload.
  destruct (UDPPayload i =? 0)%Z; reflexivity.
Qed.

Lemma defaulted_settings (i : InfluxDB) :
  same_settings i (defaulted E i) /\ conns (defaulted E i) = conns i.
Proof.
  unfold defaulted. destruct (UDPPayload i =? 0)%Z; simpl;
    split; auto using same_settings_refl; repeat split.
Qed.

Lemma effective_defaulted (i : InfluxDB) :
  effective_payload E (defaulted E i) = effective_payload E i.
Proof.
  unfold effective_payload at 1. rewrite defaulted_payload.
  destruct (effective_payload E i =? 0)%Z eqn:H; [|reflexivity].
  apply Z.eqb_eq in H. unfold effective_payload in *.
  destruct (UDPPayload i =? 0)%Z eqn:H0; [reflexivity|].
  apply Z.eqb_neq in H0. contradiction.
Qed.

Lemma connect_loop_unfold_defaulted u rest cs i w :
  connect_loop E (u :: rest) cs i w =
  if strings.HasPrefix u "udp" then
    match url_Parse E u with
    | inl err => (inl err, i, w)
    | inr parsed_url =>
      match NewUDPClient E {| Addr := Host parsed_url;
                              PayloadSize := UDPPayload (defaulted E i) |} w with
      | (inl err, w) => (inl err, defaulted E i, w)
      | (inr c, w) => connect_loop E rest (cs ++ [c]) (defaulted E i) w
      end
    end
  else
    match NewHTTPClient E {| HAddr := u;
                             Username := iUsername i;
                             Password := iPassword i;
                             UserAgent := iUserAgent i;
                             Timeout := iTimeout i |} w with
    | (inl err, w) => (inl err, i, w)
    | (inr c, w) =>
      match createDatabase E c (iDatabase i) w with
      | (Some err, w) =>
        connect_loop E rest cs i
          (log (LogPrintln ("Database creation failed: " ++ Error err)) w)
      | (None, w) => connect_loop E rest (cs ++ [c]) i w
      end
    end.
Proof. reflexivity. Qed.

(** Only the payload size can change while the pool is built, and only from
    zero to the library's default; the pool of the struct is not touched
    before the loop is over. *)
Lemma connect_loop_frame (urls : list string) :
  forall cs i w r i' w',
    connect_loop E urls cs i w = (r, i', w') ->
    same_settings i i' /\ conns i' = conns i /\
    (UDPPayload i' = UDPPayload i \/ UDPPayload i' = effective_payload E i) /\
    effective_payload E i' = effective_payload E i.
Proof.
  induction urls as [|u rest IH]; intros cs i w r i' w' H.
  - inversion H; subst. auto using same_settings_refl.
  - rewrite connect_loop_unfold_defaulted in H.
    destruct (strings.HasPrefix u "udp").
    + destruct (url_Parse E u) as [err|pu].
      * inversion H; subst. auto using same_settings_refl.
      * unfold NewUDPClient in H.
        destruct (udp_client_error E (trace w) _).
        -- inversion H; subst.
           destruct (defaulted_settings i) as [Hs Hc].
           rewrite defaulted_payload, effective_defaulted. auto.
        -- apply IH in H. destruct H as (Hs & Hc & Hp & He).
           destruct (defaulted_settings i) as [Hs0 Hc0].
           rewrite effective_defaulted, defaulted_payload in *.
           split; [|split; [|split]];
             [eapply same_settings_trans; eauto|congruence
             |destruct Hp; auto|assumption].
    + unfold NewHTTPClient in H.
      destruct (http_client_error E _).
      * inversion H; subst. auto using same_settings_refl.
      * unfold createDatabase, Query_ in H.
        destruct (conn_Query E _ _ _); apply IH in H; exact H.
Qed.

(** The trace a run of the loop leaves, and what it hands back. *)
Lemma connect_loop_events (urls : list string) :
  forall cs i w r i' w',
    connect_loop E urls cs i w = (r, i', w') ->
    exists evs built a,
      trace w' = trace w ++ evs /\ rng w' = rng w /\
      connect_events E (iDatabase i) evs built a /\
      match r with
      | inr cs' => a = false /\ cs' = cs ++ built
      | inl _ => a = true
      end.
Proof.
  induction urls as [|u rest IH]; intros cs i w r i' w' H.
  - inversion H; subst. exists [], [], false.
    rewrite !app_nil_r. repeat split. constructor.
  - rewrite connect_loop_unfold_defaulted in H.
    destruct (strings.HasPrefix u "udp").
    + destruct (url_Parse E u) as [err|pu].
      * inversion H; subst. exists [], [], true.
        rewrite app_nil_r. repeat split. constructor.
      * unfold NewUDPClient in H.
        destruct (udp_client_error E (trace w) _).
        -- inversion H; subst. eexists [_], [], true.
           simpl. repeat split. constructor.
        -- apply IH in H.
           destruct H as (evs & built & a & Ht & Hr & Hc & Hres).
           destruct (defaulted_settings i) as [(_&_&_&_&Hdb&_) _].
           rewrite Hdb in Hc.
           eexists (_ :: evs), (_ :: built), a. simpl in *.
           rewrite Ht, <- app_assoc. repeat split; auto.
           ++ constructor; exact Hc.
           ++ destruct r; [assumption|].
              destruct Hres as [-> ->]. now rewrite <- app_assoc.
    + unfold NewHTTPClient in H.
      destruct (http_client_error E _) eqn:Hh.
      * inversion H; subst. eexists [_], [], true.
        simpl. repeat split. constructor. congruence.
      * unfold createDatabase, Query_ in H.
        destruct (conn_Query E _ _ _) as [e|] eqn:Hq; apply IH in H;
          destruct H as (evs & built & a & Ht & Hr & Hc & Hres).
        -- eexists (_ :: _ :: _ :: evs), built, a. simpl in *.
           rewrite Ht, <- !app_assoc. repeat split; auto.
           apply connect_http_dropped; assumption.
        -- eexists (_ :: _ :: evs), (_ :: built), a. simpl in *.
           rewrite Ht, <- !app_assoc. repeat split; auto.
           ++ apply connect_http; assumption.
           ++ destruct r; [assumption|].
              destruct Hres as [-> ->]. now rewrite <- app_assoc.
Qed.

(** Running the loop over [pre ++ post] is running it over [pre] and, unless
    that returned, over [post] from where [pre] left off. *)
Lemma connect_loop_app (pre post : list string) :
  forall cs i w,
    connect_loop E (pre ++ post) cs i w =
    match connect_loop E pre cs i w with
    | (inl err, i1, w1) => (inl err, i1, w1)
    | (inr cs1, i1, w1) => connect_loop E post cs1 i1 w1
    end.
Proof.
  induction pre as [|u pre IH]; intros cs i w; [reflexivity|].
  rewrite <- app_comm_cons, !connect_loop_unfold_defaulted.
  destruct (strings.HasPrefix u "udp").
  - destruct (url_Parse E u); [reflexivity|].
    destruct (NewUDPClient E _ w) as [[err|c] w1]; [reflexivity|apply IH].
  - destruct (NewHTTPClient E _ w) as [[err|c] w1]; [reflexivity|].
    destruct (createDatabase E c (iDatabase i) w1) as [[err|] w2]; apply IH.
Qed.

(** Every datagram client is given the effective payload size. *)
Lemma connect_loop_payloads (urls : list string) :
  forall cs i w r i' w',
    connect_loop E urls cs i w = (r, i', w') ->
    exists evs,
      trace w' = trace w ++ evs /\
      forall conf, In (EvNewUDPClient conf) evs ->
                   PayloadSize conf = effective_payload E i.
Proof.
  induction urls as [|u rest IH]; intros cs i w r i' w' H.
  - inversion H; subst. exists [].
    split; [now rewrite app_nil_r|intros conf []].
  - rewrite connect_loop_unfold_defaulted in H.
    destruct (strings.HasPrefix u "udp").
    + destruct (url_Parse E u) as [err|pu].
      * inversion H; subst. exists [].
        split; [now rewrite app_nil_r|intros conf []].
      * unfold NewUDPClient in H.
        destruct (udp_client_error E (trace w) _).
        -- inversion H; subst. eexists [_]. split; [reflexivity|].
           intros conf [Hin|[]]. inversion Hin; subst.
           apply defaulted_payload.
        -- apply IH in H. destruct H as (evs & Ht & Hall).
           eexists (_ :: evs). split.
           ++ simpl in Ht. rewrite Ht, <- app_assoc. reflexivity.
           ++ intros conf [Hin|Hin].
              ** inversion Hin; subst. apply defaulted_payload.
              ** rewrite <- effective_defaulted. auto.
    + unfold NewHTTPClient in H.
      destruct (http_client_error E _).
      * inversion H; subst. eexists [_]. split; [reflexivity|].
        intros conf [Hin|[]]. discriminate.
      * unfold createDatabase, Query_ in H.
        destruct (conn_Query E _ _ _) as [e|];
          apply IH in H; destruct H as (evs & Ht & Hall);
          [eexists (_ :: _ :: _ :: evs)|eexists (_ :: _ :: evs)];
          (split;
           [simpl in Ht; rewrite Ht, <- !app_assoc; reflexivity
           |simpl; intros conf Hin;
            repeat (destruct Hin as [Hin|Hin]; [discriminate|]); auto]).
Qed.

End Resolver.

(** ** Facts about dispatch traces *)

Section DispatchFacts.

Variable db : string.
Variable bp : BatchPoints.

Lemma failed_attempt_tail_writes c e rq :
  written_to (tl (failed_attempt db bp c e rq)) = [].
Proof.
  unfold failed_attempt, recreate_events. simpl.
  destruct (strings.Contains (Error e) "database not found");
    [destruct rq|]; reflexivity.
Qed.

Lemma dispatch_events_written cs evs b :
  dispatch_events db bp cs evs b -> written_to evs = cs.
Proof.
  induction 1 as [|c|c e rq cs evs b H IH]; try reflexivity.
  rewrite written_to_app, IH.
  unfold failed_attempt, recreate_events.
  destruct (strings.Contains (Error e) "database not found");
    [destruct rq|]; reflexivity.
Qed.

Lemma dispatch_events_deliveries cs evs b :
  dispatch_events db bp cs evs b ->
  List.length (deliveries evs) = if b then 1 else 0.
Proof.
  induction 1 as [|c|c e rq cs evs b H IH]; try reflexivity.
  rewrite deliveries_app, length_app, IH.
  unfold failed_attempt, recreate_events.
  destruct (strings.Contains (Error e) "database not found");
    [destruct rq|]; reflexivity.
Qed.

Lemma dispatch_events_constructed cs evs b :
  dispatch_events db bp cs evs b -> constructed evs = [].
Proof.
  induction 1 as [|c|c e rq cs evs b H IH]; try reflexivity.
  rewrite constructed_app, IH.
  unfold failed_attempt, recreate_events.
  destruct (strings.Contains (Error e) "database not found");
    [destruct rq|]; reflexivity.
Qed.

(** A trace that closed with a delivery ends with it. *)
Lemma dispatch_events_delivered cs evs :
  dispatch_events db bp cs evs true ->
  exists pre c, evs = pre ++ [EvWrite c bp None] /\ deliveries pre = [].
Proof.
  intros H. remember true as b eqn:Hb.
  induction H as [|c|c e rq cs evs b H IH]; try discriminate.
  - exists [], c. auto.
  - destruct (IH Hb) as (pre & c' & -> & Hpre).
    exists (failed_attempt db bp c e rq ++ pre), c'.
    rewrite app_assoc. split; [reflexivity|].
    rewrite deliveries_app, Hpre.
    unfold failed_attempt, recreate_events.
    destruct (strings.Contains (Error e) "database not found");
      [destruct rq|]; reflexivity.
Qed.

End DispatchFacts.

(** An event of a write lies after any stretch that wrote nothing. *)
Lemma write_event_after (t d pre post : list event) c bp r :
  written_to t = [] ->
  t ++ d = pre ++ EvWrite c bp r :: post ->
  exists pre', pre = t ++ pre' /\ d = pre' ++ EvWrite c bp r :: post.
Proof.
  revert pre. induction t as [|x t IH]; intros pre Ht Heq.
  - exists pre. auto.
  - destruct pre as [|y pre].
    + simpl in Heq. inversion Heq; subst. discriminate.
    + simpl in Heq. inversion Heq; subst.
      assert (Ht' : written_to t = []).
      { unfold written_to in Ht. simpl in Ht.
        now apply app_eq_nil in Ht. }
      destruct (IH pre Ht' H1) as (pre' & -> & ->).
      exists pre'. auto.
Qed.

Section DispatchOrder.

Variable db : string.
Variable bp : BatchPoints.

(** In a dispatch trace every failed write is followed by the rest of its
    attempt, and then by the attempts on the later candidates. *)
Lemma dispatch_events_failed cs evs b :
  dispatch_events db bp cs evs b ->
  forall pre c bp' e post,
    evs = pre ++ EvWrite c bp' (Some e) :: post ->
    exists rq cs' post',
      bp' = bp /\
      post = tl (failed_attempt db bp c e rq) ++ post' /\
      dispatch_events db bp cs' post' b.
Proof.
  induction 1 as [|c0|c0 e0 rq0 cs evs b H IH]; intros pre c bp' e post Heq.
  - destruct pre; discriminate.
  - destruct pre as [|x [|y pre]]; discriminate.
  - destruct pre as [|x pre].
    + inversion Heq; subst. exists rq0, cs, evs. auto.
    + change (failed_attempt db bp c0 e0 rq0)
        with (EvWrite c0 bp (Some e0) :: tl (failed_attempt db bp c0 e0 rq0))
        in Heq.
      simpl in Heq. inversion Heq as [[Hx Hrest]].
      apply (write_event_after (tl (failed_attempt db bp c0 e0 rq0)))
        in Hrest; [|apply failed_attempt_tail_writes].
      destruct Hrest as (pre' & _ & Hevs).
      eapply IH; eauto.
Qed.

(** A delivery is the last event of a dispatch trace. *)
Lemma dispatch_events_stop cs evs b :
  dispatch_events db bp cs evs b ->
  forall pre c bp' post,
    evs = pre ++ EvWrite c bp' None :: post -> post = [] /\ b = true.
Proof.
  induction 1 as [|c0|c0 e0 rq0 cs evs b H IH]; intros pre c bp' post Heq.
  - destruct pre; discriminate.
  - destruct pre as [|x [|y pre]]; try discriminate.
    inversion Heq; subst. auto.
  - destruct pre as [|x pre]; [discriminate|].
    change (failed_attempt db bp c0 e0 rq0)
      with (EvWrite c0 bp (Some e0) :: tl (failed_attempt db bp c0 e0 rq0))
      in Heq.
    simpl in Heq. inversion Heq as [[Hx Hrest]].
    apply (write_event_after (tl (failed_attempt db bp c0 e0 rq0)))
      in Hrest; [|apply failed_attempt_tail_writes].
    destruct Hrest as (pre' & _ & Hevs).
    eapply IH; eauto.
Qed.

(** What comes after an attempt is empty or starts with the next write. *)
Lemma dispatch_events_head cs evs b :
  dispatch_events db bp cs evs b ->
  evs = [] \/ exists c r rest, evs = EvWrite c bp r :: rest.
Proof.
  destruct 1; [left; reflexivity|right; eauto|right].
  unfold failed_attempt. simpl. eauto.
Qed.

End DispatchOrder.

(** ** The two halves of [Write] *)

Section Caller.

Variable E : Env.

Lemma Write_unfold (i : InfluxDB) (m : Metrics) (w : World) :
  Write E i m w =
  match reconnect E i w with
  | (Some err, i1, w1) => (Return (Some err), i1, w1)
  | (None, i1, w1) => write_batch E i1 m w1
  end.
Proof.
  unfold Write, reconnect, write_batch.
  destruct (if (List.length (conns i) =? 0)%nat
            then Connect E i w else (None, i, w)) as [[[e|] i1] w1];
    reflexivity.
Qed.

Lemma reconnect_nonempty (i : InfluxDB) (w : World) :
  conns i <> [] -> reconnect E i w = (None, i, w).
Proof.
  unfold reconnect. destruct (conns i); [contradiction|reflexivity].
Qed.

Lemma reconnect_empty (i : InfluxDB) (w : World) :
  conns i = [] -> reconnect E i w = Connect E i w.
Proof. unfold reconnect. intros ->. reflexivity. Qed.

(** What [Connect] leaves behind. *)
Lemma Connect_events (i : InfluxDB) (w : World) r i' w' :
  Connect E i w = (r, i', w') ->
  exists evs built a,
    trace w' = trace w ++ evs /\
    connect_events E (iDatabase i) evs built a /\
    same_settings i i' /\
    (UDPPayload i' = UDPPayload i \/
     UDPPayload i' = effective_payload E i) /\
    effective_payload E i' = effective_payload E i /\
    match r with
    | None =>
      a = false /\ conns i' = built /\
      rng w' = time_Now_UnixNano E (trace w')
    | Some _ => a = true /\ conns i' = conns i /\ rng w' = rng w
    end.
Proof.
  unfold Connect. intros H.
  destruct (connect_loop E (connect_urls i) [] i w) as [[res i1] w1] eqn:Hl.
  destruct (connect_loop_events _ _ _ _ _ _ _ _ Hl)
    as (evs & built & a & Ht & Hr & Hc & Hres).
  destruct (connect_loop_frame _ _ _ _ _ _ _ _ Hl) as (Hs & Hcn & Hp & He).
  exists evs, built, a.
  destruct res as [err|cs]; inversion H; subst; simpl.
  - repeat (split; [assumption|]). auto.
  - destruct Hres as [-> ->]. repeat (split; [assumption|]). auto.
Qed.

(** Under the contract of [rand.Perm] the index expression of the loop is
    always in range. *)
Lemma perm_in_range (r : Z) (n k m : nat) :
  perm_contract E ->
  nth_error (fst (rand_Perm E r n)) k = Some m -> m < n.
Proof.
  intros Hperm Hk. apply nth_error_In in Hk.
  apply (Permutation_in _ (Hperm r n)) in Hk.
  apply in_seq in Hk. lia.
Qed.

Lemma perm_length (r : Z) (n : nat) :
  perm_contract E -> List.length (fst (rand_Perm E r n)) = n.
Proof.
  intros Hperm. rewrite (Permutation_length (Hperm r n)). apply length_seq.
Qed.

(** The second half of [Write] either returns an encoder error after
    logging only, or draws a permutation and leaves a dispatch trace over a
    prefix of it. *)
Lemma write_batch_events (i : InfluxDB) (m : Metrics) (w : World) o i' w' :
  perm_contract E ->
  write_batch E i m w = (o, i', w') ->
  i' = i /\
  exists logs, forallb is_log logs = true /\
    ((exists e,
         o = Return (Some e) /\ trace w' = trace w ++ logs /\
         rng w' = rng w /\
         (batch_points_error E (batch_config i) = Some e \/
          batch_points_error E (batch_config i) = None /\
          forallb (encodable E) (Data m) = false /\
          exists bad, In bad (Data m) /\ point_of E bad = inl e))
     \/
     (batch_points_error E (batch_config i) = None /\
      forallb (encodable E) (Data m) = true /\
      exists bp k cs evs b,
        let p := fst (rand_Perm E (rng w) (List.length (conns i))) in
        trace w' = trace w ++ logs ++ evs /\
        rng w' = snd (rand_Perm E (rng w) (List.length (conns i))) /\
        dispatch_events (iDatabase i) bp cs evs b /\
        map Some cs = map (nth_error (conns i)) (firstn k p) /\
        k <= List.length (conns i) /\
        o = Return (if b then None else Some pool_exhausted) /\
        (b = false -> k = List.length (conns i)))).
Proof.
  intros Hperm H. unfold write_batch, NewBatchPoints in H.
  destruct (batch_points_error E (batch_config i)) as [e|] eqn:Hbp.
  - inversion H; subst. split; [reflexivity|]. exists []. split; [reflexivity|].
    left. exists e. rewrite app_nil_r. auto.
  - destruct (forallb (encodable E) (Data m)) eqn:Henc.
    + destruct (encode_loop_accepts E _ Henc
                  {| bp_conf := batch_config i; bp_points := [] |} w)
        as (bp & w1 & Hrun).
      rewrite Hrun in H.
      destruct (encode_loop_events E _ _ _ _ _ Hrun) as (logs & Ht & Hr & Hl).
      destruct (rand_Perm E (rng w1) (List.length (conns i)))
        as [p r] eqn:Hp.
      destruct (write_loop E p i bp (Some pool_exhausted) (set_rng w1 r))
        as [o1 w2] eqn:Hloop.
      inversion H; subst. split; [reflexivity|].
      exists logs. split; [assumption|]. right.
      split; [reflexivity|]. split; [reflexivity|].
      destruct (write_loop_events E _ _ _ _ _ _ _ Hloop)
        as (k & cs & evs & b & Ht2 & Hr2 & Hd & Hm & Hk & Ho).
      exists bp, k, cs, evs, b. simpl in Ht2, Hr2.
      rewrite <- Hr, Hp. simpl.
      assert (Hlen : List.length p = List.length (conns i')).
      { replace p with (fst (rand_Perm E (rng w1) (List.length (conns i'))))
          by now rewrite Hp.
        now apply perm_length. }
      rewrite Ht2, Ht, <- app_assoc.
      split; [reflexivity|]. split; [assumption|]. split; [assumption|].
      split; [assumption|]. split; [lia|].
      destruct o as [res|].
      * destruct b; [subst; split; [reflexivity|discriminate]|].
        destruct Ho as [-> Hk']. split; [reflexivity|]. intros _. lia.
      * destruct Ho as (-> & n & Hn & Hnone). exfalso.
        assert (n < List.length (conns i')).
        { eapply (perm_in_range (rng w1) _ k); [assumption|].
          rewrite Hp. exact Hn. }
        apply nth_error_None in Hnone. lia.
    + destruct (encode_loop_rejects E _ Henc
                  {| bp_conf := batch_config i; bp_points := [] |} w)
        as (good & bad & rest & e & w1 & Hd & Hg & Hb & Hrun).
      rewrite Hrun in H. inversion H; subst.
      destruct (encode_loop_events E _ _ _ _ _ Hrun) as (logs & Ht & Hr & Hl).
      split; [reflexivity|]. exists logs. split; [assumption|].
      left. exists e. repeat split; auto. right.
      repeat split; auto. exists bad. split; [|assumption].
      rewrite Hd. apply in_elt.
Qed.

End Caller.

Lemma no_write_event (t pre post : list event) c bp r :
  written_to t = [] -> t <> pre ++ EvWrite c bp r :: post.
Proof.
  intros Ht ->. rewrite written_to_app in Ht.
  apply app_eq_nil in Ht. destruct Ht as [_ Ht]. discriminate.
Qed.

Lemma logs_deliveries (t : list event) :
  written_to t = [] -> deliveries t = [].
Proof.
  intros H. pose proof (deliveries_incl_written t) as Hle.
  rewrite H in Hle. simpl in Hle. destruct (deliveries t); [reflexivity|].
  simpl in Hle. lia.
Qed.

Section CallerFacts.

Variable E : Env.

(** The reconnection writes no batch; with a pool at hand it does nothing. *)
Lemma reconnect_events (i : InfluxDB) (w : World) ce i1 w1 :
  reconnect E i w = (ce, i1, w1) ->
  exists evs,
    trace w1 = trace w ++ evs /\ written_to evs = [] /\
    same_settings i i1 /\
    (conns i <> [] -> ce = None /\ i1 = i /\ w1 = w /\ evs = []) /\
    (conns i = [] -> Connect E i w = (ce, i1, w1)).
Proof.
  intros H. destruct (conns i) as [|c cs] eqn:Hc.
  - rewrite reconnect_empty in H by assumption.
    destruct (Connect_events E _ _ _ _ _ H)
      as (evs & built & a & Ht & Hev & Hs & _).
    exists evs. split; [assumption|]. split; [|split; [assumption|split]].
    + eapply connect_events_writes; eauto.
    + intros Hne. contradiction.
    + intros _. assumption.
  - rewrite reconnect_nonempty in H by (rewrite Hc; discriminate).
    inversion H; subst. exists []. rewrite app_nil_r.
    split; [reflexivity|]. split; [reflexivity|].
    split; [apply same_settings_refl|]. split; [auto|discriminate].
Qed.

End CallerFacts.

Lemma same_settings_batch_config (i i1 : InfluxDB) :
  same_settings i i1 -> batch_config i1 = batch_config i.
Proof.
  intros (_ & _ & _ & _ & Hdb & _ & Hrp & Hwc & _).
  unfold batch_config. now rewrite Hdb, Hrp, Hwc.
Qed.

(** With a metric that [NewPoint] rejects, the second half of [Write]
    returns that error after logging only. *)
Lemma write_batch_rejects (E : Env) (i : InfluxDB) (m : Metrics) (w : World) :
  batch_points_error E (batch_config i) = None ->
  forallb (encodable E) (Data m) = false ->
  exists e bad logs w',
    write_batch E i m w = (Return (Some e), i, w') /\
    In bad (Data m) /\ point_of E bad = inl e /\
    trace w' = trace w ++ logs /\ forallb is_log logs = true /\
    rng w' = rng w.
Proof.
  intros Hbp Henc. unfold write_batch, NewBatchPoints. rewrite Hbp.
  destruct (encode_loop_rejects E _ Henc
              {| bp_conf := batch_config i; bp_points := [] |} w)
    as (good & bad & rest & e & w1 & Hd & Hg & Hb & Hrun).
  rewrite Hrun.
  destruct (encode_loop_events E _ _ _ _ _ Hrun) as (logs & Ht & Hr & Hl).
  exists e, bad, logs, w1. repeat split; auto.
  rewrite Hd. apply in_elt.
Qed.

(** A dispatch trace that is empty tried nothing and delivered nothing. *)
Lemma dispatch_events_nil db bp cs b :
  dispatch_events db bp cs [] b -> cs = [] /\ b = false.
Proof.
  intros H. inversion H; subst; auto.
Qed.

Lemma same_settings_http_config (i i1 : InfluxDB) (u : string) :
  same_settings i i1 -> http_config i1 u = http_config i u.
Proof.
  intros (_ & _ & Hu & Hp & _ & Ha & _ & _ & Ht & _).
  unfold http_config. now rewrite Hu, Hp, Ha, Ht.
Qed.

Section ResolverRuns.

Variable E : Env.

Lemma constructible_frame (i i1 : InfluxDB) (u : string) :
  same_settings i i1 ->
  effective_payload E i1 = effective_payload E i ->
  constructible E i u -> constructible E i1 u.
Proof.
  unfold constructible. intros Hs He H.
  rewrite (same_settings_http_config _ _ u Hs), He. exact H.
Qed.

(** When no constructor refuses, the loop runs to its end and constructs a
    transport for every URL, whatever the creation queries answer. *)
Lemma connect_loop_constructs (urls : list string) :
  forall cs i w,
    (forall u, In u urls -> constructible E i u) ->
    exists cs' i' w' evs,
      connect_loop E urls cs i w = (inr cs', i', w') /\
      trace w' = trace w ++ evs /\
      List.length (constructed evs) = List.length urls.
Proof.
  induction urls as [|u rest IH]; intros cs i w Hall.
  - exists cs, i, w, []. rewrite app_nil_r. auto.
  - rewrite connect_loop_unfold_defaulted.
    pose proof (Hall u (or_introl eq_refl)) as Hu. unfold constructible in Hu.
    assert (Hrest : forall i1,
               same_settings i i1 ->
               effective_payload E i1 = effective_payload E i ->
               forall u', In u' rest -> constructible E i1 u').
    { intros i1 Hs He u' Hin. apply (constructible_frame i); auto.
      apply Hall. now right. }
    destruct (strings.HasPrefix u "udp").
    + destruct Hu as (pu & -> & Hudp). unfold NewUDPClient.
      rewrite defaulted_payload, Hudp.
      destruct (IH (cs ++ [UDP {| Addr := Host pu;
                                  PayloadSize := effective_payload E i |}])
                   (defaulted E i)
                   (emit (EvNewUDPClient
                            {| Addr := Host pu;
                               PayloadSize := effective_payload E i |}) w))
        as (cs' & i' & w' & evs & Hrun & Ht & Hlen).
      { apply Hrest; [apply defaulted_settings|apply effective_defaulted]. }
      exists cs', i', w', (EvNewUDPClient
                             {| Addr := Host pu;
                                PayloadSize := effective_payload E i |} :: evs).
      rewrite Hrun, Ht. simpl. rewrite <- app_assoc. auto.
    + unfold NewHTTPClient. fold (http_config i u). rewrite Hu.
      unfold createDatabase, Query_, log.
      destruct (conn_Query E _ _ _) as [e|];
        match goal with
        | |- context [connect_loop E rest ?c i ?w0] =>
          destruct (IH c i w0 (Hrest i (same_settings_refl i) eq_refl))
            as (cs' & i' & w' & evs & Hrun & Ht & Hlen)
        end.
      * exists cs', i', w'. eexists (_ :: _ :: _ :: evs).
        rewrite Hrun, Ht. simpl. rewrite <- !app_assoc.
        split; [reflexivity|]. split; [reflexivity|]. simpl. now rewrite Hlen.
      * exists cs', i', w'. eexists (_ :: _ :: evs).
        rewrite Hrun, Ht. simpl. rewrite <- !app_assoc.
        split; [reflexivity|]. split; [reflexivity|]. simpl. now rewrite Hlen.
Qed.

(** When every URL is a stream URL and every creation query fails, the loop
    runs to its end and appends nothing. *)
Lemma connect_loop_streams_dropped (urls : list string) :
  forall cs i w,
    (forall u, In u urls ->
               strings.HasPrefix u "udp" = false /\
               http_client_error E (http_config i u) = None /\
               forall h q, conn_Query E h (HTTP (http_config i u)) q <> None) ->
    exists w', connect_loop E urls cs i w = (inr cs, i, w').
Proof.
  induction urls as [|u rest IH]; intros cs i w Hall.
  - exists w. reflexivity.
  - rewrite connect_loop_unfold_defaulted.
    destruct (Hall u (or_introl eq_refl)) as (-> & Hh & Hq).
    unfold NewHTTPClient. fold (http_config i u). rewrite Hh.
    unfold createDatabase, Query_.
    destruct (conn_Query E _ _ _) as [e|] eqn:Hans.
    + apply IH. intros u' Hin. apply Hall. now right.
    + exfalso. exact (Hq _ _ Hans).
Qed.

End ResolverRuns.


Section PayloadDefault.

Variable E : Env.

(** Once the loop has taken the datagram branch past [url.Parse], the
    payload size of the struct is the effective one, however the run ends. *)
Lemma connect_loop_reaches_datagram
      (pre post : list string) (u : string) pu cs i w cs1 i1 w1 r i' w' :
  connect_loop E pre cs i w = (inr cs1, i1, w1) ->
  strings.HasPrefix u "udp" = true ->
  url_Parse E u = inr pu ->
  connect_loop E (pre ++ u :: post) cs i w = (r, i', w') ->
  UDPPayload i' = effective_payload E i.
Proof.
  intros Hpre Hu Hparse Hrun.
  destruct (connect_loop_frame E _ _ _ _ _ _ _ Hpre) as (_ & _ & _ & He).
  rewrite connect_loop_app, Hpre in Hrun.
  rewrite connect_loop_unfold_defaulted, Hu, Hparse in Hrun.
  destruct (NewUDPClient E _ w1) as [[err|c] w2].
  - inversion Hrun; subst. now rewrite defaulted_payload.
  - destruct (connect_loop_frame E _ _ _ _ _ _ _ Hrun) as (_ & _ & Hp & _).
    rewrite effective_defaulted, defaulted_payload in Hp.
    destruct Hp; congruence.
Qed.

(** [Connect] leaves the settings alone, and a payload size that is set. *)
Lemma Connect_frame (i : InfluxDB) (w : World) r i' w' :
  Connect E i w = (r, i', w') ->
  same_settings i i' /\
  (UDPPayload i <> 0%Z -> UDPPayload i' = UDPPayload i).
Proof.
  intros H.
  destruct (Connect_events E _ _ _ _ _ H)
    as (_ & _ & _ & _ & _ & Hs & Hp & _).
  split; [assumption|]. intros Hne.
  unfold effective_payload in Hp. apply Z.eqb_neq in Hne.
  rewrite Hne in Hp. destruct Hp; assumption.
Qed.

(** A struct that holds the library's default keeps it through [Connect],
    and every datagram client is built with it. *)
Lemma Connect_keeps_default (i : InfluxDB) (w : World) r i' w' evs :
  UDPPayload i = client_UDPPayloadSize E ->
  Connect E i w = (r, i', w') ->
  trace w' = trace w ++ evs ->
  UDPPayload i' = client_UDPPayloadSize E /\
  forall conf, In (EvNewUDPClient conf) evs ->
               PayloadSize conf = client_UDPPayloadSize E.
Proof.
  intros Hd H Ht.
  assert (He : effective_payload E i = client_UDPPayloadSize E).
  { unfold effective_payload. rewrite Hd.
    destruct (client_UDPPayloadSize E =? 0)%Z; reflexivity. }
  destruct (Connect_events E _ _ _ _ _ H)
    as (_ & _ & _ & _ & _ & _ & Hp & _).
  split; [destruct Hp; congruence|].
  intros conf Hin. rewrite <- He.
  unfold Connect in H.
  destruct (connect_loop E (connect_urls i) [] i w) as [[res i1] w1] eqn:Hl.
  destruct (connect_loop_payloads E _ _ _ _ _ _ _ Hl) as (evs0 & Ht0 & Hall).
  apply Hall.
  assert (Hw : trace w' = trace w1) by (destruct res; now inversion H).
  rewrite Hw, Ht0 in Ht. apply app_inv_head in Ht. now subst.
Qed.

Lemma write_batch_struct (i : InfluxDB) (m : Metrics) (w : World) o i' w' :
  write_batch E i m w = (o, i', w') -> i' = i.
Proof.
  unfold write_batch. intros H.
  destruct (NewBatchPoints E (batch_config i)); [now inversion H|].
  destruct (encode_loop E (Data m) b w) as [[err|bp] w1]; [now inversion H|].
  destruct (rand_Perm E (rng w1) (List.length (conns i))) as [p r].
  destruct (write_loop E p i bp (Some pool_exhausted) (set_rng w1 r)).
  now inversion H.
Qed.

(** [Write] changes the struct only through the reconnection. *)
Lemma Write_keeps_default (i : InfluxDB) (m : Metrics) (w : World) o i' w' :
  UDPPayload i = client_UDPPayloadSize E ->
  Write E i m w = (o, i', w') ->
  UDPPayload i' = client_UDPPayloadSize E.
Proof.
  intros Hd H. rewrite Write_unfold in H.
  destruct (reconnect E i w) as [[ce i1] w1] eqn:Hrec.
  assert (H1 : UDPPayload i1 = client_UDPPayloadSize E).
  { unfold reconnect in Hrec.
    destruct (List.length (conns i) =? 0)%nat.
    - destruct (Connect_events E _ _ _ _ _ Hrec)
        as (evs & _ & _ & Ht & _).
      exact (proj1 (Connect_keeps_default _ _ _ _ _ evs Hd Hrec Ht)).
    - inversion Hrec; subst. assumption. }
  destruct ce as [err|]; [inversion H; subst; assumption|].
  apply write_batch_struct in H. now subst.
Qed.

End PayloadDefault.


















(** ** The first connection tried *)

Section FirstChoice.

Variable E : Env.





End FirstChoice.

(** * The claims *)

(** C1.  A call of [Write] delivers the batch at most once.  The writes of
    the call go to the pool entries named by a prefix of the permutation that
    [rand.Perm] returned for this call, so there are at most as many as the
    pool has entries; at most one of them succeeds; a successful write is the
    last event of the call, so no later candidate is tried, and the call
    returns [nil] exactly when there is one. *)
Theorem Write_delivers_at_most_once
        (E : Env) (i : InfluxDB) (m : Metrics) (w : World) o i' w' :
  perm_contract E ->
  Write E i m w = (o, i', w') ->
  exists evs,
    trace w' = trace w ++ evs /\
    (exists r k,
        let p := fst (rand_Perm E r (List.length (conns i'))) in
        Permutation p (seq 0 (List.length (conns i'))) /\
        map Some (written_to evs) =
        map (nth_error (conns i')) (firstn k p)) /\
    List.length (written_to evs) <= List.length (conns i') /\
    List.length (deliveries evs) <= 1 /\
    (forall pre c bp post,
        evs = pre ++ EvWrite c bp None :: post ->
        post = [] /\ o = Return None) /\
    (o = Return None -> exists pre c bp, evs = pre ++ [EvWrite c bp None]).
Proof.
  intros Hperm H. rewrite Write_unfold in H.
  destruct (reconnect E i w) as [[ce i1] w1] eqn:Hrec.
  destruct (reconnect_events E _ _ _ _ _ Hrec)
    as (evc & Htc & Hwc & _ & _ & _).
  assert (Hquiet : forall t,
             written_to t = [] ->
             (exists r k,
                 let p := fst (rand_Perm E r (List.length (conns i'))) in
                 Permutation p (seq 0 (List.length (conns i'))) /\
                 map Some (written_to t) =
                 map (nth_error (conns i')) (firstn k p)) /\
             List.length (written_to t) <= List.length (conns i') /\
             List.length (deliveries t) <= 1 /\
             (forall pre c bp post,
                 t = pre ++ EvWrite c bp None :: post ->
                 post = [] /\ o = Return None)).
  { intros t Ht. split; [|split; [|split]].
    - exists 0%Z, 0. split; [apply Hperm|]. rewrite Ht. reflexivity.
    - rewrite Ht. simpl. lia.
    - rewrite (logs_deliveries _ Ht). simpl. lia.
    - intros pre c bp post Heq. exfalso.
      exact (no_write_event _ _ _ _ _ _ Ht Heq). }
  destruct ce as [e|].
  - inversion H; subst. exists evc. split; [assumption|].
    destruct (Hquiet evc Hwc) as (H1 & H2 & H3 & H4).
    repeat (split; [assumption|]). discriminate.
  - destruct (write_batch_events E _ _ _ _ _ _ Hperm H)
      as (-> & logs & Hlogs & [Hearly|Hrun]).
    + destruct Hearly as (e & -> & Ht & _).
      exists (evc ++ logs). rewrite Ht, Htc, <- app_assoc.
      split; [reflexivity|].
      assert (Hw : written_to (evc ++ logs) = []).
      { rewrite written_to_app, Hwc, (logs_written_to _ Hlogs). reflexivity. }
      destruct (Hquiet _ Hw) as (H1 & H2 & H3 & H4).
      repeat (split; [assumption|]). discriminate.
    + destruct Hrun as (_ & _ & bp & k & cs & evs & b & Hrun).
      cbv zeta in Hrun.
      destruct Hrun as (Ht & _ & Hd & Hm & Hk & -> & Hb).
      exists (evc ++ logs ++ evs). rewrite Ht, Htc, <- !app_assoc.
      split; [reflexivity|].
      assert (Hw : written_to (evc ++ logs ++ evs) = cs).
      { rewrite !written_to_app, Hwc, (logs_written_to _ Hlogs).
        simpl. eapply dispatch_events_written; eauto. }
      assert (Hlen : List.length cs = k).
      { apply (f_equal (@List.length _)) in Hm.
        rewrite !length_map, length_firstn in Hm.
        rewrite (perm_length E _ _ Hperm) in Hm. lia. }
      split; [|split; [|split; [|split]]].
      * exists (rng w1), k. split; [apply Hperm|]. rewrite Hw. exact Hm.
      * rewrite Hw. lia.
      * rewrite !deliveries_app, (logs_deliveries _ Hwc),
          (logs_deliveries _ (logs_written_to _ Hlogs)).
        simpl. rewrite (dispatch_events_deliveries _ _ _ _ _ Hd).
        destruct b; lia.
      * intros pre c bp' post Heq. rewrite app_assoc in Heq.
        apply write_event_after in Heq.
        -- destruct Heq as (pre' & _ & Heq).
           destruct (dispatch_events_stop _ _ _ _ _ Hd _ _ _ _ Heq)
             as [-> ->]. auto.
        -- rewrite written_to_app, Hwc, (logs_written_to _ Hlogs).
           reflexivity.
      * intros Ho. destruct b; [|discriminate].
        destruct (dispatch_events_delivered _ _ _ _ Hd)
          as (pre & c & -> & _).
        exists (evc ++ logs ++ pre), c, bp. now rewrite <- !app_assoc.
Qed.

(** A pool whose first candidate lacks the database and whose second one
    accepts the batch: the call ends with the one delivery. *)
Lemma Write_delivers_at_most_once_witness :
  let run := Write Demo.env
                   (Demo.config ["http://nodb:8086"; "http://a:8086"])
                   {| Data := [Demo.cpu] |} Demo.start in
  exists evs,
    trace (snd run) = trace Demo.start ++ evs /\
    (exists r k,
        let p := fst (rand_Perm Demo.env r
                                (List.length (conns (snd (fst run))))) in
        Permutation p (seq 0 (List.length (conns (snd (fst run))))) /\
        map Some (written_to evs) =
        map (nth_error (conns (snd (fst run)))) (firstn k p)) /\
    List.length (written_to evs) <= List.length (conns (snd (fst run))) /\
    List.length (deliveries evs) <= 1 /\
    (forall pre c bp post,
        evs = pre ++ EvWrite c bp None :: post ->
        post = [] /\ fst (fst run) = Return None) /\
    (fst (fst run) = Return None ->
     exists pre c bp, evs = pre ++ [EvWrite c bp None]).
Proof.
  intros run.
  apply (Write_delivers_at_most_once
           Demo.env (Demo.config ["http://nodb:8086"; "http://a:8086"])
           {| Data := [Demo.cpu] |} Demo.start
           (fst (fst run)) (snd (fst run)) (snd run)).
  - exact rotation_perm.
  - vm_compute. reflexivity.
Defined.

(** C2.  When the pool is at hand (it was not empty, or the reconnection
    returned no error), the batch encodes, and no write of the call
    succeeds, [Write] returns the one aggregate error.  Every pool entry was
    then tried exactly once, in the order of the permutation drawn for the
    call; each failed write is followed at once by its log entry, and
    nothing is tried a second time. *)
Theorem Write_pool_exhausted
        (E : Env) (i : InfluxDB) (m : Metrics) (w : World)
        i1 w1 o i' w' evs :
  perm_contract E ->
  reconnect E i w = (None, i1, w1) ->
  batch_points_error E (batch_config i1) = None ->
  forallb (encodable E) (Data m) = true ->
  Write E i m w = (o, i', w') ->
  trace w' = trace w ++ evs ->
  deliveries evs = [] ->
  let p := fst (rand_Perm E (rng w1) (List.length (conns i'))) in
  o = Return (Some pool_exhausted) /\
  i' = i1 /\
  Permutation p (seq 0 (List.length (conns i'))) /\
  map Some (written_to evs) = map (nth_error (conns i')) p /\
  (forall pre c bp e post,
      evs = pre ++ EvWrite c bp (Some e) :: post ->
      exists post', post = EvLog (VLogError "InfluxDB Write" e) :: post').
Proof.
  intros Hperm Hrec Hbp Henc H Ht Hnone p.
  rewrite Write_unfold, Hrec in H.
  destruct (reconnect_events E _ _ _ _ _ Hrec)
    as (evc & Htc & Hwc & _ & _ & _).
  destruct (write_batch_events E _ _ _ _ _ _ Hperm H)
    as (-> & logs & Hlogs & [Hearly|Hrun]).
  - destruct Hearly as (e & _ & _ & _ & [Hb|(_ & Hb & _)]); congruence.
  - destruct Hrun as (_ & _ & bp & k & cs & evd & b & Hrun).
    cbv zeta in Hrun. destruct Hrun as (Ht' & _ & Hd & Hm & Hk & -> & Hb).
    rewrite Htc, <- app_assoc in Ht'. rewrite Ht in Ht'.
    apply app_inv_head in Ht'. subst evs.
    assert (Hwl : written_to (evc ++ logs) = []).
    { rewrite written_to_app, Hwc, (logs_written_to _ Hlogs). reflexivity. }
    rewrite app_assoc in Hnone. rewrite deliveries_app in Hnone.
    apply app_eq_nil in Hnone. destruct Hnone as [_ Hnone].
    pose proof (dispatch_events_deliveries _ _ _ _ _ Hd) as Hcount.
    rewrite Hnone in Hcount. destruct b; [discriminate|].
    specialize (Hb eq_refl). subst k.
    split; [reflexivity|]. split; [reflexivity|].
    split; [apply Hperm|]. split.
    + rewrite app_assoc, written_to_app, Hwl. simpl.
      rewrite (dispatch_events_written _ _ _ _ _ Hd), Hm.
      f_equal. apply firstn_all2. unfold p.
      rewrite (perm_length E _ _ Hperm). lia.
    + intros pre c bp' e post Heq. rewrite app_assoc in Heq.
      apply write_event_after in Heq; [|assumption].
      destruct Heq as (pre' & _ & Heq).
      destruct (dispatch_events_failed _ _ _ _ _ Hd _ _ _ _ _ Heq)
        as (rq & cs' & post' & _ & -> & _).
      unfold failed_attempt. simpl. eauto.
Qed.

(** A datagram client on a dead host and a stream client without the
    database: both writes fail and the call reports exhaustion. *)
Lemma Write_pool_exhausted_witness :
  let i := set_conns
             (Demo.config ["udp://down:8089"; "http://nodb:8086"])
             [UDP {| Addr := "down:8089"; PayloadSize := 512 |};
              HTTP {| HAddr := "http://nodb:8086"; Username := "telegraf";
                      Password := "secret"; UserAgent := "telegraf";
                      Timeout := 5000000000 |}] in
  let run := Write Demo.env i {| Data := [Demo.cpu] |} Demo.start in
  let p := fst (rand_Perm Demo.env (rng Demo.start)
                          (List.length (conns (snd (fst run))))) in
  fst (fst run) = Return (Some pool_exhausted) /\
  snd (fst run) = i /\
  Permutation p (seq 0 (List.length (conns (snd (fst run))))) /\
  map Some (written_to (trace (snd run))) =
  map (nth_error (conns (snd (fst run)))) p /\
  (forall pre c bp e post,
      trace (snd run) = pre ++ EvWrite c bp (Some e) :: post ->
      exists post', post = EvLog (VLogError "InfluxDB Write" e) :: post').
Proof.
  intros i run.
  apply (Write_pool_exhausted
           Demo.env i {| Data := [Demo.cpu] |} Demo.start i Demo.start
           (fst (fst run)) (snd (fst run)) (snd run) (trace (snd run))).
  - exact rotation_perm.
  - reflexivity.
  - reflexivity.
  - reflexivity.
  - vm_compute. reflexivity.
  - reflexivity.
  - vm_compute. reflexivity.
Defined.

(** C3, as the code has it.  A batch with a metric that [NewPoint] rejects
    is never written and never reported as delivered.  With a pool at hand
    the call returns the encoder's error and its whole trace is log entries:
    no transport is built and no connection is contacted.  With an empty pool
    [Connect] runs first; its error, if any, is what the call returns, and
    otherwise the encoder's error is returned after the events of the
    reconnection. *)
Theorem Write_rejects_invalid_batch
        (E : Env) (i : InfluxDB) (m : Metrics) (w : World) o i' w' evs :
  batch_points_error E (batch_config i) = None ->
  forallb (encodable E) (Data m) = false ->
  Write E i m w = (o, i', w') ->
  trace w' = trace w ++ evs ->
  written_to evs = [] /\
  (exists e, o = Return (Some e)) /\
  (conns i <> [] ->
   (exists e bad,
       In bad (Data m) /\ point_of E bad = inl e /\ o = Return (Some e)) /\
   forallb is_log evs = true /\ contacted evs = [] /\ constructed evs = [] /\
   i' = i /\ rng w' = rng w) /\
  (conns i = [] ->
   exists ce i1 w1,
     Connect E i w = (ce, i1, w1) /\ i' = i1 /\
     match ce with
     | Some err => o = Return (Some err) /\ w' = w1
     | None =>
       (exists e bad,
           In bad (Data m) /\ point_of E bad = inl e /\ o = Return (Some e)) /\
       exists logs, trace w' = trace w1 ++ logs /\ forallb is_log logs = true
     end).
Proof.
  intros Hbp Henc H Ht. rewrite Write_unfold in H.
  destruct (reconnect E i w) as [[ce i1] w1] eqn:Hrec.
  destruct (reconnect_events E _ _ _ _ _ Hrec)
    as (evc & Htc & Hwc & Hs & Hfull & Hempty).
  assert (Hbp1 : batch_points_error E (batch_config i1) = None)
    by now rewrite (same_settings_batch_config _ _ Hs).
  destruct (write_batch_rejects E i1 m w1 Hbp1 Henc)
    as (e & bad & logs & w2 & Hrun & Hin & Hpt & Ht2 & Hl & Hr).
  assert (Hshape :
            (exists err, ce = Some err /\ o = Return (Some err) /\
                         i' = i1 /\ w' = w1 /\ evs = evc) \/
            (ce = None /\ o = Return (Some e) /\ i' = i1 /\ w' = w2 /\
             evs = evc ++ logs)).
  { destruct ce as [err|].
    - left. exists err. inversion H; subst.
      rewrite Htc in Ht. apply app_inv_head in Ht. auto.
    - right. rewrite Hrun in H. inversion H; subst.
      rewrite Ht2, Htc, <- app_assoc in Ht. apply app_inv_head in Ht. auto. }
  split; [|split; [|split]].
  - destruct Hshape as [(err & _ & _ & _ & _ & ->)|(_ & _ & _ & _ & ->)];
      [assumption|].
    rewrite written_to_app, Hwc, (logs_written_to _ Hl). reflexivity.
  - destruct Hshape as [(err & _ & -> & _)|(_ & -> & _)]; eauto.
  - intros Hne. destruct (Hfull Hne) as (-> & -> & -> & ->).
    destruct Hshape as [(err & Hce & _)|(_ & -> & -> & -> & ->)];
      [discriminate|].
    simpl. split; [eauto|]. split; [assumption|].
    split; [now apply logs_contacted|].
    split; [now apply logs_constructed|]. auto.
  - intros Hnil. exists ce, i1, w1. split; [auto|].
    destruct Hshape as [(err & -> & -> & -> & -> & _)
                       |(-> & -> & -> & -> & _)];
      [auto|].
    split; [reflexivity|]. split; [eauto|]. eauto.
Qed.

(** A pool at hand and a batch with a channel-typed field: the call
    returns the encoder's error and reaches nothing. *)
Lemma Write_rejects_invalid_batch_witness :
  let i := set_conns (Demo.config ["udp://b:8089"])
                     [UDP {| Addr := "b:8089"; PayloadSize := 512 |}] in
  let m := {| Data := [Demo.cpu; Demo.odd] |} in
  let run := Write Demo.env i m Demo.start in
  written_to (trace (snd run)) = [] /\
  (exists e, fst (fst run) = Return (Some e)) /\
  (conns i <> [] ->
   (exists e bad,
       In bad (Data m) /\ point_of Demo.env bad = inl e /\
       fst (fst run) = Return (Some e)) /\
   forallb is_log (trace (snd run)) = true /\
   contacted (trace (snd run)) = [] /\
   constructed (trace (snd run)) = [] /\
   snd (fst run) = i /\ rng (snd run) = rng Demo.start) /\
  (conns i = [] ->
   exists ce i1 w1,
     Connect Demo.env i Demo.start = (ce, i1, w1) /\ snd (fst run) = i1 /\
     match ce with
     | Some err => fst (fst run) = Return (Some err) /\ snd run = w1
     | None =>
       (exists e bad,
           In bad (Data m) /\ point_of Demo.env bad = inl e /\
           fst (fst run) = Return (Some e)) /\
       exists logs,
         trace (snd run) = trace w1 ++ logs /\ forallb is_log logs = true
     end).
Proof.
  intros i m run.
  apply (Write_rejects_invalid_batch
           Demo.env i m Demo.start
           (fst (fst run)) (snd (fst run)) (snd run) (trace (snd run))).
  - reflexivity.
  - reflexivity.
  - vm_compute. reflexivity.
  - reflexivity.
Defined.

(** C3, as it is stated, fails on an empty pool: the reconnection sends the
    creation query to the stream endpoint before the encoder looks at the
    batch, and the rebuilt pool stays behind. *)
Lemma Write_invalid_batch_contacts_endpoint :
  let m := {| Data := [Demo.odd] |} in
  let run := Write Demo.env (Demo.config ["http://a:8086"]) m Demo.start in
  forallb (encodable Demo.env) (Data m) = false /\
  fst (fst run) = Return (Some (errorString "unsupported field type")) /\
  contacted (trace (snd run)) =
  [HTTP {| HAddr := "http://a:8086"; Username := "telegraf";
           Password := "secret"; UserAgent := "telegraf";
           Timeout := 5000000000 |}] /\
  contacted (trace (snd run)) <> [].
Proof.
  vm_compute. repeat split. discriminate.
Qed.

(** C4.  Whenever a write of the call fails with an error whose text
    contains the not-found phrase, the next events of the call are the log
    entry of that error and the creation query for the configured database
    on the same connection; a failure of the query is logged next, a success
    leaves no entry.  The call then goes on with the candidates that follow
    in the permutation ([q2]), stopping after this attempt only when none is
    left; the pool index of the failed connection occurs nowhere else in the
    permutation, so the connection is not written to again in this call. *)
Theorem Write_recreates_database
        (E : Env) (i : InfluxDB) (m : Metrics) (w : World) o i' w' evs :
  perm_contract E ->
  Write E i m w = (o, i', w') ->
  trace w' = trace w ++ evs ->
  forall pre c bp e post,
    evs = pre ++ EvWrite c bp (Some e) :: post ->
    strings.Contains (Error e) "database not found" = true ->
    exists rq post' r q1 n q2 q3,
      post =
      EvLog (VLogError "InfluxDB Write" e)
        :: EvQuery c {| Command := create_database_command (iDatabase i') |} rq
        :: match rq with
           | Some errc =>
             EvLog (VLogError (not_found_message (iDatabase i')) errc) :: post'
           | None => post'
           end /\
      fst (rand_Perm E r (List.length (conns i'))) = q1 ++ n :: q2 ++ q3 /\
      nth_error (conns i') n = Some c /\
      ~ In n (q1 ++ q2 ++ q3) /\
      map Some (written_to pre) = map (nth_error (conns i')) q1 /\
      map Some (written_to post') = map (nth_error (conns i')) q2 /\
      (post' = [] \/ exists c' r' rest, post' = EvWrite c' bp r' :: rest) /\
      (post' = [] -> q2 ++ q3 = []).
Proof.
  intros Hperm H Ht pre c bp e post Heq Hnf. rewrite Write_unfold in H.
  destruct (reconnect E i w) as [[ce i1] w1] eqn:Hrec.
  destruct (reconnect_events E _ _ _ _ _ Hrec)
    as (evc & Htc & Hwc & _ & _ & _).
  destruct ce as [err|].
  { inversion H; subst. rewrite Htc in Ht. apply app_inv_head in Ht.
    subst evc. exfalso. exact (no_write_event _ _ _ _ _ _ Hwc eq_refl). }
  destruct (write_batch_events E _ _ _ _ _ _ Hperm H)
    as (Hi & logs & Hlogs & Hcases).
  subst i'. destruct Hcases as [Hearly|Hrun].
  { destruct Hearly as (err & _ & Ht' & _).
    rewrite Htc, <- app_assoc in Ht'. rewrite Ht in Ht'.
    apply app_inv_head in Ht'. exfalso.
    apply (no_write_event (evc ++ logs) pre post c bp (Some e)).
    - rewrite written_to_app, Hwc, (logs_written_to _ Hlogs). reflexivity.
    - congruence. }
  destruct Hrun as (_ & _ & bp0 & k & cs & evd & b & Hrun).
  cbv zeta in Hrun. destruct Hrun as (Ht' & _ & Hd & Hm & Hk & Ho & Hb).
  rewrite Htc, <- app_assoc in Ht'. rewrite Ht in Ht'.
  apply app_inv_head in Ht'. rewrite Ht' in Heq. clear Ht Ht' evs.
  assert (Hwl : written_to (evc ++ logs) = []).
  { rewrite written_to_app, Hwc, (logs_written_to _ Hlogs). reflexivity. }
  rewrite app_assoc in Heq.
  apply write_event_after in Heq; [|assumption].
  destruct Heq as (pre' & -> & Hevd).
  destruct (dispatch_events_failed _ _ _ _ _ Hd _ _ _ _ _ Hevd)
    as (rq & cs' & post' & -> & -> & Hd').
  pose proof (dispatch_events_written _ _ _ _ _ Hd) as Hcs.
  pose proof (dispatch_events_written _ _ _ _ _ Hd') as Hcs'.
  rewrite Hevd in Hcs.
  change (EvWrite c bp0 (Some e) :: ?t)
    with ([EvWrite c bp0 (Some e)] ++ t) in Hcs.
  rewrite !written_to_app, failed_attempt_tail_writes, Hcs' in Hcs.
  simpl in Hcs. subst cs.
  set (p := fst (rand_Perm E (rng w1) (List.length (conns i1)))) in *.
  rewrite map_app in Hm. simpl in Hm. symmetry in Hm.
  apply map_eq_app in Hm. destruct Hm as (q1 & q2' & Hsplit & Hq1 & Hq2').
  symmetry in Hq2'. simpl in Hq2'. symmetry in Hq2'.
  apply map_eq_cons in Hq2'. destruct Hq2' as (n & q2 & -> & Hn & Hq2).
  assert (Hp : p = q1 ++ n :: q2 ++ skipn k p).
  { rewrite <- (firstn_skipn k p) at 1. rewrite Hsplit, <- app_assoc.
    reflexivity. }
  exists rq, post', (rng w1), q1, n, q2, (skipn k p).
  split; [|split; [|split; [|split; [|split; [|split; [|split]]]]]].
  - unfold failed_attempt, recreate_events. rewrite Hnf. simpl.
    destruct rq; reflexivity.
  - exact Hp.
  - exact Hn.
  - assert (Hnd : NoDup p).
    { apply (Permutation_NoDup (Permutation_sym (Hperm _ _))).
      apply seq_NoDup. }
    rewrite Hp in Hnd. apply NoDup_remove_2 in Hnd. exact Hnd.
  - rewrite written_to_app, Hwl. simpl. symmetry. exact Hq1.
  - rewrite Hcs'. symmetry. exact Hq2.
  - destruct (dispatch_events_head _ _ _ _ _ Hd') as [->|Hhead]; auto.
  - intros ->. destruct (dispatch_events_nil _ _ _ _ Hd') as [-> ->].
    specialize (Hb eq_refl). subst k.
    destruct q2; [|discriminate]. simpl.
    apply skipn_all2. unfold p. rewrite (perm_length E _ _ Hperm). lia.
Qed.

(** Scenario A of the specification: the first candidate lacks the
    database, the second accepts the batch. *)
Lemma Write_recreates_database_witness :
  let i := Demo.pool ["http://nodb:8086"; "http://a:8086"]
                     [Demo.http "http://nodb:8086"; Demo.http "http://a:8086"] in
  let run := Write Demo.env i {| Data := [Demo.cpu] |} Demo.start in
  let e := errorString "database not found: telegraf" in
  let pre := [EvLog (VLogDebug "InfluxDB Write" Demo.cpu);
              EvLog (LogMetric Demo.cpu)] in
  let post :=
      [EvLog (VLogError "InfluxDB Write" e);
       EvQuery (Demo.http "http://nodb:8086")
               {| Command := create_database_command "telegraf" |} None;
       EvWrite (Demo.http "http://a:8086") Demo.cpu_batch None] in
  exists rq post' r q1 n q2 q3,
    post =
    EvLog (VLogError "InfluxDB Write" e)
      :: EvQuery (Demo.http "http://nodb:8086")
           {| Command :=
                create_database_command (iDatabase (snd (fst run))) |} rq
      :: match rq with
         | Some errc =>
           EvLog (VLogError (not_found_message (iDatabase (snd (fst run))))
                            errc) :: post'
         | None => post'
         end /\
    fst (rand_Perm Demo.env r (List.length (conns (snd (fst run))))) =
    q1 ++ n :: q2 ++ q3 /\
    nth_error (conns (snd (fst run))) n = Some (Demo.http "http://nodb:8086") /\
    ~ In n (q1 ++ q2 ++ q3) /\
    map Some (written_to pre) = map (nth_error (conns (snd (fst run)))) q1 /\
    map Some (written_to post') =
    map (nth_error (conns (snd (fst run)))) q2 /\
    (post' = [] \/
     exists c' r' rest, post' = EvWrite c' Demo.cpu_batch r' :: rest) /\
    (post' = [] -> q2 ++ q3 = []).
Proof.
  intros i run e pre post.
  apply (Write_recreates_database
           Demo.env i {| Data := [Demo.cpu] |} Demo.start
           (fst (fst run)) (snd (fst run)) (snd run) (trace (snd run))
           rotation_perm).
  - vm_compute. reflexivity.
  - reflexivity.
  - vm_compute. reflexivity.
  - vm_compute. reflexivity.
Defined.

(** C5, as the code has it.  When the loop of [Connect] reaches a URL that
    cannot be parsed, [Connect] returns the error there and then.  Whatever
    follows in the list is neither constructed nor contacted (the result does
    not depend on it), the connections built so far are dropped, and the pool
    of the struct keeps the value it had before the call. *)
Theorem Connect_aborts_on_unparsable_url
        (E : Env) (i : InfluxDB) (w : World)
        pre u post err cs1 i1 w1 :
  connect_urls i = pre ++ u :: post ->
  connect_loop E pre [] i w = (inr cs1, i1, w1) ->
  unparsable E i u err ->
  exists w2,
    Connect E i w = (Some err, i1, w2) /\
    conns i1 = conns i /\
    rng w2 = rng w /\
    trace w2 =
    trace w1 ++ (if strings.HasPrefix u "udp" then []
                 else [EvNewHTTPClient (http_config i u)]) /\
    forall post',
      connect_loop E (pre ++ u :: post') [] i w = (inl err, i1, w2).
Proof.
  intros Hurls Hpre Hbad.
  destruct (connect_loop_frame E _ _ _ _ _ _ _ Hpre) as (Hs & Hc & _ & _).
  destruct (connect_loop_events E _ _ _ _ _ _ _ Hpre)
    as (evs & built & a & _ & Hr & _).
  assert (Hstep : exists w2,
             rng w2 = rng w /\
             trace w2 =
             trace w1 ++ (if strings.HasPrefix u "udp" then []
                          else [EvNewHTTPClient (http_config i u)]) /\
             forall post',
               connect_loop E (pre ++ u :: post') [] i w = (inl err, i1, w2)).
  { unfold unparsable in Hbad.
    destruct (strings.HasPrefix u "udp") eqn:Hu.
    - exists w1. split; [assumption|]. split; [now rewrite app_nil_r|].
      intros post'. rewrite connect_loop_app, Hpre.
      rewrite connect_loop_unfold_defaulted, Hu, Hbad. reflexivity.
    - exists (emit (EvNewHTTPClient (http_config i u)) w1).
      split; [assumption|]. split; [reflexivity|].
      intros post'. rewrite connect_loop_app, Hpre.
      rewrite connect_loop_unfold_defaulted, Hu. unfold NewHTTPClient.
      fold (http_config i1 u).
      rewrite (same_settings_http_config _ _ u Hs), Hbad. reflexivity. }
  destruct Hstep as (w2 & Hr2 & Ht2 & Hall).
  exists w2. split; [|auto].
  unfold Connect. rewrite Hurls, (Hall post). reflexivity.
Qed.

(** The second of three datagram URLs has a bad escape. *)
Lemma Connect_aborts_on_unparsable_url_witness :
  let i := Demo.config ["udp://a:8089"; "udp://%zz"; "udp://b:8089"] in
  let err := errorString "parse: invalid URL escape" in
  let i1 := set_UDPPayload i 512 in
  let w1 := emit (EvNewUDPClient {| Addr := "a:8089"; PayloadSize := 512 |})
                 Demo.start in
  exists w2,
    Connect Demo.env i Demo.start = (Some err, i1, w2) /\
    conns i1 = conns i /\
    rng w2 = rng Demo.start /\
    trace w2 =
    trace w1 ++ (if strings.HasPrefix "udp://%zz" "udp" then []
                 else [EvNewHTTPClient (http_config i "udp://%zz")]) /\
    forall post',
      connect_loop Demo.env (["udp://a:8089"] ++ "udp://%zz" :: post') [] i
                   Demo.start
      = (inl err, i1, w2).
Proof.
  intros i err i1 w1.
  apply (Connect_aborts_on_unparsable_url
           Demo.env i Demo.start
           ["udp://a:8089"] "udp://%zz" ["udp://b:8089"] err
           [Demo.udp "a:8089"] i1 w1).
  - reflexivity.
  - reflexivity.
  - reflexivity.
Defined.

(** C5, as it is stated, fails: after the unparsable URL the third endpoint
    is not built, and the first one, which was, is not in the pool. *)
Lemma Connect_unparsable_url_builds_nothing_more :
  let i := Demo.config ["udp://a:8089"; "udp://%zz"; "udp://b:8089"] in
  let run := Connect Demo.env i Demo.start in
  fst (fst run) = Some (errorString "parse: invalid URL escape") /\
  conns (snd (fst run)) = [] /\
  constructed (trace (snd run)) =
  [EvNewUDPClient {| Addr := "a:8089"; PayloadSize := 512 |}] /\
  ~ In (EvNewUDPClient {| Addr := "b:8089"; PayloadSize := 512 |})
       (trace (snd run)).
Proof.
  vm_compute. repeat split. intros [H|[]]. discriminate.
Qed.

(** C6, as the code has it.  A call of [Write] on an empty pool runs
    [Connect] once and then the rest of [Write], which constructs no
    transport: there is no second reconnection.  An error of [Connect] is
    returned as it is.  When [Connect] returns [nil] and built a pool, the
    call goes on as a call on that pool does; when it returns [nil] with the
    pool still empty and the batch encodes, the call logs, contacts nothing
    more and returns the aggregate error. *)
Theorem Write_reconnects_once
        (E : Env) (i : InfluxDB) (m : Metrics) (w : World) ce i1 w1 :
  perm_contract E ->
  conns i = [] ->
  Connect E i w = (ce, i1, w1) ->
  match ce with
  | Some err => Write E i m w = (Return (Some err), i1, w1)
  | None =>
    Write E i m w = write_batch E i1 m w1 /\
    (forall o i' w',
        write_batch E i1 m w1 = (o, i', w') ->
        exists evs, trace w' = trace w1 ++ evs /\ constructed evs = []) /\
    (conns i1 <> [] -> Write E i m w = Write E i1 m w1) /\
    (conns i1 = [] ->
     batch_points_error E (batch_config i1) = None ->
     forallb (encodable E) (Data m) = true ->
     exists w' logs,
       Write E i m w = (Return (Some pool_exhausted), i1, w') /\
       trace w' = trace w1 ++ logs /\ forallb is_log logs = true)
  end.
Proof.
  intros Hperm Hnil Hc.
  pose proof (Write_unfold E i m w) as Hw.
  rewrite (reconnect_empty E i w Hnil), Hc in Hw.
  destruct ce as [err|]; [exact Hw|].
  split; [exact Hw|]. split; [|split].
  - intros o i' w' Hrun.
    destruct (write_batch_events E _ _ _ _ _ _ Hperm Hrun)
      as (_ & logs & Hlogs & [Hearly|Hok]).
    + destruct Hearly as (e & _ & Ht & _). exists logs.
      split; [assumption|now apply logs_constructed].
    + destruct Hok as (_ & _ & bp & k & cs & evs & b & Hok).
      cbv zeta in Hok. destruct Hok as (Ht & _ & Hd & _).
      exists (logs ++ evs). split; [assumption|].
      rewrite constructed_app, (logs_constructed _ Hlogs).
      eapply dispatch_events_constructed; eauto.
  - intros Hne. rewrite Hw, (Write_unfold E i1 m w1).
    now rewrite (reconnect_nonempty E i1 w1 Hne).
  - intros Hnil1 Hbp Henc.
    destruct (write_batch E i1 m w1) as [[o i'] w'] eqn:Hrun.
    destruct (write_batch_events E _ _ _ _ _ _ Hperm Hrun)
      as (-> & logs & Hlogs & [Hearly|Hok]).
    + destruct Hearly as (e & _ & _ & _ & [Hb|(_ & Hb & _)]); congruence.
    + destruct Hok as (_ & _ & bp & k & cs & evs & b & Hok).
      cbv zeta in Hok. destruct Hok as (Ht & _ & Hd & Hm & Hk & -> & Hb).
      rewrite Hnil1 in Hk, Hm. simpl in Hk.
      assert (k = 0) by lia. subst k. simpl in Hm.
      destruct cs; [|discriminate].
      pose proof (dispatch_events_written _ _ _ _ _ Hd) as Hwr.
      pose proof (dispatch_events_deliveries _ _ _ _ _ Hd) as Hdl.
      rewrite (logs_deliveries _ Hwr) in Hdl. destruct b; [discriminate|].
      inversion Hd; subst.
      exists w', logs. rewrite app_nil_r in Ht. auto.
Qed.

(** One stream endpoint that refuses the creation query: the reconnection
    returns [nil] with an empty pool, and the call reports exhaustion. *)
Lemma Write_reconnects_once_witness :
  let i := Demo.config ["http://down:8086"] in
  let m := {| Data := [Demo.cpu] |} in
  let rc := Connect Demo.env i Demo.start in
  Write Demo.env i m Demo.start
  = write_batch Demo.env (snd (fst rc)) m (snd rc) /\
  (forall o i' w',
      write_batch Demo.env (snd (fst rc)) m (snd rc) = (o, i', w') ->
      exists evs, trace w' = trace (snd rc) ++ evs /\ constructed evs = []) /\
  (conns (snd (fst rc)) <> [] ->
   Write Demo.env i m Demo.start
   = Write Demo.env (snd (fst rc)) m (snd rc)) /\
  (conns (snd (fst rc)) = [] ->
   batch_points_error Demo.env (batch_config (snd (fst rc))) = None ->
   forallb (encodable Demo.env) (Data m) = true ->
   exists w' logs,
     Write Demo.env i m Demo.start
     = (Return (Some pool_exhausted), snd (fst rc), w') /\
     trace w' = trace (snd rc) ++ logs /\ forallb is_log logs = true).
Proof.
  intros i m rc.
  apply (Write_reconnects_once
           Demo.env i m Demo.start None (snd (fst rc)) (snd rc)).
  - exact rotation_perm.
  - reflexivity.
  - vm_compute. reflexivity.
Defined.

(** C6, as it is stated, fails: when the reconnection returns an error, the
    call returns that error, not the aggregate one. *)
Lemma Write_returns_the_connect_error :
  let run := Write Demo.env (Demo.config ["udp://%zz"])
                   {| Data := [Demo.cpu] |} Demo.start in
  conns (Demo.config ["udp://%zz"]) = [] /\
  fst (fst (Connect Demo.env (Demo.config ["udp://%zz"]) Demo.start))
  = Some (errorString "parse: invalid URL escape") /\
  fst (fst run) = Return (Some (errorString "parse: invalid URL escape")) /\
  fst (fst run) <> Return (Some pool_exhausted).
Proof.
  vm_compute. repeat split. discriminate.
Qed.

(** C7.  In the trace of [Connect] every stream client that was
    constructed is followed at once by the creation query for the configured
    database on that client, and a failed query by its log entry.  When
    [Connect] returns [nil] the pool is what the trace shows as accepted:
    the datagram clients and the stream clients whose query went through, in
    order, so a client whose query failed is left out.  A failed query does
    not end the build: when no constructor refuses its URL, [Connect]
    returns [nil] and has constructed a transport for every URL.  When in
    addition every URL is a stream URL whose query fails, it returns [nil]
    with an empty pool. *)
Theorem Connect_creates_schema
        (E : Env) (i : InfluxDB) (w : World) r i' w' evs :
  Connect E i w = (r, i', w') ->
  trace w' = trace w ++ evs ->
  (forall pre conf post,
      evs = pre ++ EvNewHTTPClient conf :: post ->
      http_client_error E conf = None ->
      exists rq post',
        post =
        EvQuery (HTTP conf)
                {| Command := create_database_command (iDatabase i) |} rq
          :: post' /\
        forall e,
          rq = Some e ->
          exists post'',
            post' =
            EvLog (LogPrintln ("Database creation failed: " ++ Error e))
              :: post'') /\
  (r = None -> conns i' = accepted evs) /\
  ((forall u, In u (connect_urls i) -> constructible E i u) ->
   r = None /\
   List.length (constructed evs) = List.length (connect_urls i)) /\
  ((forall u, In u (connect_urls i) ->
              strings.HasPrefix u "udp" = false /\
              http_client_error E (http_config i u) = None /\
              forall h q, conn_Query E h (HTTP (http_config i u)) q <> None) ->
   r = None /\ conns i' = []).
Proof.
  intros H Ht.
  destruct (Connect_events E _ _ _ _ _ H)
    as (evs0 & built & a & Ht0 & Hev & _ & _ & _ & Hres).
  rewrite Ht in Ht0. apply app_inv_head in Ht0. subst evs0.
  split; [|split; [|split]].
  - intros pre conf post Heq Hok.
    exact (connect_events_create E _ _ _ _ Hev _ _ _ Heq Hok).
  - intros ->. destruct Hres as (-> & -> & _).
    symmetry. eapply connect_events_accepted; eauto.
  - intros Hall.
    destruct (connect_loop_constructs E (connect_urls i) [] i w Hall)
      as (cs' & i1 & w1 & evs1 & Hrun & Ht1 & Hlen).
    unfold Connect in H. rewrite Hrun in H. inversion H; subst.
    split; [reflexivity|]. simpl in Ht. rewrite Ht1 in Ht.
    apply app_inv_head in Ht. now subst.
  - intros Hall.
    destruct (connect_loop_streams_dropped E (connect_urls i) [] i w Hall)
      as (w1 & Hrun).
    unfold Connect in H. rewrite Hrun in H. inversion H; subst.
    split; reflexivity.
Qed.

(** An accepting stream endpoint, a refusing one and a datagram endpoint. *)
Lemma Connect_creates_schema_witness :
  let i := Demo.config ["http://a:8086"; "http://down:8086"; "udp://b:8089"] in
  let run := Connect Demo.env i Demo.start in
  let evs := trace (snd run) in
  (forall pre conf post,
      evs = pre ++ EvNewHTTPClient conf :: post ->
      http_client_error Demo.env conf = None ->
      exists rq post',
        post =
        EvQuery (HTTP conf)
                {| Command := create_database_command (iDatabase i) |} rq
          :: post' /\
        forall e,
          rq = Some e ->
          exists post'',
            post' =
            EvLog (LogPrintln ("Database creation failed: " ++ Error e))
              :: post'') /\
  (fst (fst run) = None -> conns (snd (fst run)) = accepted evs) /\
  ((forall u, In u (connect_urls i) -> constructible Demo.env i u) ->
   fst (fst run) = None /\
   List.length (constructed evs) = List.length (connect_urls i)) /\
  ((forall u, In u (connect_urls i) ->
              strings.HasPrefix u "udp" = false /\
              http_client_error Demo.env (http_config i u) = None /\
              forall h q,
                conn_Query Demo.env h (HTTP (http_config i u)) q <> None) ->
   fst (fst run) = None /\ conns (snd (fst run)) = []).
Proof.
  intros i run evs.
  apply (Connect_creates_schema
           Demo.env i Demo.start
           (fst (fst run)) (snd (fst run)) (snd run) evs).
  - vm_compute. reflexivity.
  - reflexivity.
Defined.

(** The build of the witness leaves the refusing endpoint out and keeps the
    two others; a build over refusing stream endpoints only returns [nil]
    with an empty pool. *)
Example Connect_drops_refusing_endpoint :
  let run := Connect Demo.env
                     (Demo.config ["http://a:8086"; "http://down:8086";
                                   "udp://b:8089"]) Demo.start in
  fst (fst run) = None /\
  conns (snd (fst run)) = [Demo.http "http://a:8086"; Demo.udp "b:8089"] /\
  contacted (trace (snd run)) =
  [Demo.http "http://a:8086"; Demo.http "http://down:8086"].
Proof. vm_compute. repeat split. Qed.

Example Connect_succeeds_with_empty_pool :
  let run := Connect Demo.env
                     (Demo.config ["http://down:8086"; "http://down:8087"])
                     Demo.start in
  fst (fst run) = None /\ conns (snd (fst run)) = [] /\
  List.length (constructed (trace (snd run))) = 2.
Proof. vm_compute. repeat split. Qed.



(** In the call of the witness the second endpoint gets the batch, and it is
    first under two of the six orders. *)
Example Write_picks_head_of_rotation :
  let i := Demo.pool ["http://a:8086"; "http://b:8086"; "udp://c:8089"]
                     [Demo.http "http://a:8086"; Demo.http "http://b:8086";
                      Demo.udp "c:8089"] in
  let w := {| trace := []; rng := 1 |} in
  let run := Write Demo.env i {| Data := [Demo.cpu] |} w in
  fst (rand_Perm Demo.env (rng w) 3) = [1; 2; 0] /\
  fst (fst run) = Return None /\
  deliveries (trace (snd run)) = [Demo.http "http://b:8086"] /\
  List.length
    (filter (fun q => is_client (Demo.http "http://b:8086")
                                (first_tried Demo.env i Demo.cpu_batch w q))
            (all_perms 3)) = 2.
Proof. vm_compute. repeat split. Qed.



(** In that call the endpoint was sent the creation query and is in the pool
    afterwards, although the call returned the encoder's error. *)
Example Write_fails_and_leaves_a_pool :
  let run := Write Demo.env (Demo.config ["http://a:8086"])
                   {| Data := [Demo.odd] |} Demo.start in
  fst (fst run) = Return (Some (errorString "unsupported field type")) /\
  conns (snd (fst run)) = [Demo.http "http://a:8086"] /\
  trace (snd run) =
  [EvNewHTTPClient (http_config (Demo.config []) "http://a:8086");
   EvQuery (Demo.http "http://a:8086")
           {| Command := create_database_command "telegraf" |} None;
   EvLog (VLogError "InfluxDB Write" (errorString "unsupported field type"))].
Proof. vm_compute. repeat split. Qed.

(** C10, as the code has it.  When the payload size is zero and the loop of
    [Connect] reaches a datagram URL that [url.Parse] accepts, [Connect]
    stores the library's default in the struct, whether or not it goes on to
    return an error.  No other setting of the struct changes.  The stored
    value stays through every later [Connect] and [Write], and every datagram
    client built later is given it. *)
Theorem Connect_defaults_payload
        (E : Env) (i : InfluxDB) (w : World)
        pre u post pu cs1 i1 w1 r i' w' :
  UDPPayload i = 0%Z ->
  connect_urls i = pre ++ u :: post ->
  connect_loop E pre [] i w = (inr cs1, i1, w1) ->
  strings.HasPrefix u "udp" = true ->
  url_Parse E u = inr pu ->
  Connect E i w = (r, i', w') ->
  UDPPayload i' = client_UDPPayloadSize E /\
  same_settings i i' /\
  (forall w2 r2 i2 w3 evs,
      Connect E i' w2 = (r2, i2, w3) ->
      trace w3 = trace w2 ++ evs ->
      UDPPayload i2 = client_UDPPayloadSize E /\
      same_settings i i2 /\
      forall conf, In (EvNewUDPClient conf) evs ->
                   PayloadSize conf = client_UDPPayloadSize E) /\
  (forall m w2 o i2 w3,
      Write E i' m w2 = (o, i2, w3) ->
      UDPPayload i2 = client_UDPPayloadSize E).
Proof.
  intros Hzero Hurls Hpre Hu Hparse H.
  assert (Hd : UDPPayload i' = client_UDPPayloadSize E).
  { assert (He : effective_payload E i = client_UDPPayloadSize E).
    { unfold effective_payload. now rewrite Hzero. }
    rewrite <- He. unfold Connect in H. rewrite Hurls in H.
    destruct (connect_loop E (pre ++ u :: post) [] i w)
      as [[res i0] w0] eqn:Hl.
    pose proof (connect_loop_reaches_datagram
                  E _ _ _ _ _ _ _ _ _ _ _ _ _ Hpre Hu Hparse Hl) as Hp.
    destruct res; inversion H; subst; exact Hp. }
  destruct (Connect_frame E _ _ _ _ _ H) as [Hs _].
  split; [assumption|]. split; [assumption|]. split.
  - intros w2 r2 i2 w3 evs H2 Ht.
    destruct (Connect_keeps_default E _ _ _ _ _ evs Hd H2 Ht) as [Hk Hc].
    destruct (Connect_frame E _ _ _ _ _ H2) as [Hs2 _].
    split; [assumption|]. split; [|assumption].
    eapply same_settings_trans; eauto.
  - intros m w2 o i2 w3 H2.
    exact (Write_keeps_default E _ _ _ _ _ _ Hd H2).
Qed.

(** A stream endpoint, then a datagram endpoint, with the payload size left
    unset in the configuration. *)
Lemma Connect_defaults_payload_witness :
  let i := Demo.config ["http://a:8086"; "udp://b:8089"] in
  let run := Connect Demo.env i Demo.start in
  let i' := snd (fst run) in
  UDPPayload i' = client_UDPPayloadSize Demo.env /\
  same_settings i i' /\
  (forall w2 r2 i2 w3 evs,
      Connect Demo.env i' w2 = (r2, i2, w3) ->
      trace w3 = trace w2 ++ evs ->
      UDPPayload i2 = client_UDPPayloadSize Demo.env /\
      same_settings i i2 /\
      forall conf, In (EvNewUDPClient conf) evs ->
                   PayloadSize conf = client_UDPPayloadSize Demo.env) /\
  (forall m w2 o i2 w3,
      Write Demo.env i' m w2 = (o, i2, w3) ->
      UDPPayload i2 = client_UDPPayloadSize Demo.env).
Proof.
  intros i run i'.
  apply (Connect_defaults_payload
           Demo.env i Demo.start
           ["http://a:8086"] "udp://b:8089" [] {| Host := "b:8089" |}
           [Demo.http "http://a:8086"] i
           (snd (connect_loop Demo.env ["http://a:8086"] [] i Demo.start))
           (fst (fst run)) i' (snd run)).
  - reflexivity.
  - reflexivity.
  - vm_compute. reflexivity.
  - reflexivity.
  - reflexivity.
  - vm_compute. reflexivity.
Defined.

(** C10, as it is stated, fails: the list holds a datagram URL and the
    payload size is zero, but [url.Parse] refuses the URL and [Connect]
    returns before the assignment. *)
Lemma Connect_unparsable_datagram_keeps_zero :
  let i := Demo.config ["udp://%zz"] in
  let run := Connect Demo.env i Demo.start in
  UDPPayload i = 0%Z /\
  existsb (fun u => strings.HasPrefix u "udp") (connect_urls i) = true /\
  UDPPayload (snd (fst run)) = 0%Z /\
  UDPPayload (snd (fst run)) <> client_UDPPayloadSize Demo.env.
Proof.
  vm_compute. repeat split. discriminate.
Qed.

(** * Further properties *)

(** ** Texts *)

Lemma string_app_assoc (a b c : string) : ((a ++ b) ++ c = a ++ b ++ c)%string.
Proof. induction a as [|x a IH]; simpl; [reflexivity|now rewrite IH]. Qed.

Lemma string_app_nil_r (a : string) : (a ++ EmptyString = a)%string.
Proof. induction a as [|x a IH]; simpl; [reflexivity|now rewrite IH]. Qed.

Lemma string_app_empty (a b : string) :
  (a ++ b)%string = EmptyString <-> a = EmptyString /\ b = EmptyString.
Proof.
  destruct a; simpl; split.
  - auto.
  - now intros [_ ->].
  - discriminate.
  - intros [H _]. discriminate.
Qed.

Lemma prefix_app (t b : string) : String.prefix t (t ++ b) = true.
Proof.
  induction t as [|x t IH]; simpl; [destruct b; reflexivity|].
  destruct (ascii_dec x x); [assumption|contradiction].
Qed.

Lemma Contains_unfold (s sub : string) :
  strings.Contains s sub =
  String.prefix sub s
  || match s with
     | EmptyString => false
     | String _ s' => strings.Contains s' sub
     end.
Proof. destruct s; reflexivity. Qed.

(** A text contains what it starts with, and what its tail contains. *)
Lemma Contains_here (t b : string) : strings.Contains (t ++ b) t = true.
Proof. rewrite Contains_unfold, prefix_app. reflexivity. Qed.

Lemma Contains_skip (a s t : string) :
  strings.Contains s t = true -> strings.Contains (a ++ s) t = true.
Proof.
  intros H. induction a as [|x a IH]; simpl; [assumption|].
  rewrite IH. apply orb_true_r.
Qed.

(** ** Shutdown *)

Section Closing.

Variable conn_Close : list event -> list Client -> Client -> option error.

(** The loop calls [Close] on every connection, in order, whatever the
    earlier ones answer. *)
Lemma close_loop_closed (cs : list Client) :
  forall errS w closed,
    snd (close_loop conn_Close cs errS w closed) = closed ++ cs.
Proof.
  induction cs as [|c rest IH]; intros errS w closed; simpl.
  - now rewrite app_nil_r.
  - destruct (conn_Close (trace w) closed c); rewrite IH, <- app_assoc;
      reflexivity.
Qed.

(** The text the loop returns is the one it started with, followed by a
    tail that is empty exactly when every failed close had an empty text,
    and that contains the text of every failed close. *)
Lemma close_loop_text (cs : list Client) :
  forall errS w closed,
    exists tail,
      fst (close_loop conn_Close cs errS w closed) = (errS ++ tail)%string /\
      (tail = EmptyString <->
       forall pre c post err,
         cs = pre ++ c :: post ->
         conn_Close (trace w) (closed ++ pre) c = Some err ->
         Error err = EmptyString) /\
      forall pre c post err,
        cs = pre ++ c :: post ->
        conn_Close (trace w) (closed ++ pre) c = Some err ->
        strings.Contains tail (Error err) = true.
Proof.
  induction cs as [|c rest IH]; intros errS w closed; simpl.
  - exists EmptyString. rewrite string_app_nil_r.
    split; [reflexivity|]. split.
    + split; [|reflexivity]. intros _ pre c post err Heq.
      destruct pre; discriminate.
    + intros pre c post err Heq. destruct pre; discriminate.
  - assert (Hshift : forall pre c0 post err (P : Prop),
               (forall pre' , pre = c :: pre' ->
                              rest = pre' ++ c0 :: post ->
                              conn_Close (trace w) ((closed ++ [c]) ++ pre') c0
                              = Some err -> P) ->
               (pre = [] -> c0 = c -> conn_Close (trace w) closed c = Some err
                -> P) ->
               c :: rest = pre ++ c0 :: post ->
               conn_Close (trace w) (closed ++ pre) c0 = Some err -> P).
    { intros pre c0 post err P Hlater Hnow Heq Hans.
      destruct pre as [|x pre'].
      - inversion Heq; subst. rewrite app_nil_r in Hans. now apply Hnow.
      - inversion Heq; subst. apply (Hlater pre'); auto.
        now rewrite <- app_assoc. }
    destruct (conn_Close (trace w) closed c) as [e|] eqn:Hc.
    + destruct (IH (errS ++ Error e)%string w (closed ++ [c]))
        as (tail & Htext & Hempty & Hall).
      exists (Error e ++ tail)%string.
      rewrite Htext, string_app_assoc. split; [reflexivity|]. split.
      * rewrite string_app_empty, Hempty. split.
        -- intros [He Hrest] pre c0 post err.
           apply Hshift.
           ++ intros pre' _ Hr Hans. exact (Hrest _ _ _ _ Hr Hans).
           ++ intros _ _ Hans. congruence.
        -- intros H. split.
           ++ apply (H [] c rest e); [reflexivity|].
              now rewrite app_nil_r.
           ++ intros pre c0 post err Hr Hans.
              apply (H (c :: pre) c0 post err); [now rewrite Hr|].
              now rewrite <- app_assoc in Hans.
      * intros pre c0 post err. apply Hshift.
        -- intros pre' _ Hr Hans. apply Contains_skip.
           exact (Hall _ _ _ _ Hr Hans).
        -- intros _ _ Hans. replace err with e by congruence.
           apply Contains_here.
    + destruct (IH errS w (closed ++ [c])) as (tail & Htext & Hempty & Hall).
      exists tail. split; [assumption|]. split.
      * rewrite Hempty. split.
        -- intros Hrest pre c0 post err. apply Hshift.
           ++ intros pre' _ Hr Hans. exact (Hrest _ _ _ _ Hr Hans).
           ++ intros _ _ Hans. congruence.
        -- intros H pre c0 post err Hr Hans.
           apply (H (c :: pre) c0 post err); [now rewrite Hr|].
           now rewrite <- app_assoc in Hans.
      * intros pre c0 post err. apply Hshift.
        -- intros pre' _ Hr Hans. exact (Hall _ _ _ _ Hr Hans).
        -- intros _ _ Hans. congruence.
Qed.

End Closing.

(** X1.  [Close] calls [Close] on every connection of the pool, once each
    and in pool order; a close that fails does not end the loop. *)
Theorem Close_closes_every_connection
        (conn_Close : list event -> list Client -> Client -> option error)
        (i : InfluxDB) (w : World) (closed : list Client) :
  snd (Close conn_Close i w closed) = closed ++ conns i.
Proof.
  unfold Close.
  pose proof (close_loop_closed conn_Close (conns i) EmptyString w closed)
    as H.
  destruct (close_loop conn_Close (conns i) EmptyString w closed)
    as [errS closed'].
  simpl in H. subst. destruct (String.eqb errS EmptyString); reflexivity.
Qed.

(** X2.  [Close] returns [nil] exactly when every close that failed had an
    empty error text: it tests the concatenated texts, not the errors, so
    it returns [nil] when all closes succeed and also when the only failures
    carry no text. *)
Theorem Close_returns_nil_iff
        (conn_Close : list event -> list Client -> Client -> option error)
        (i : InfluxDB) (w : World) (closed : list Client) :
  fst (Close conn_Close i w closed) = None <->
  forall pre c post err,
    conns i = pre ++ c :: post ->
    conn_Close (trace w) (closed ++ pre) c = Some err ->
    Error err = EmptyString.
Proof.
  unfold Close.
  destruct (close_loop_text conn_Close (conns i) EmptyString w closed)
    as (tail & Htext & Hempty & _).
  destruct (close_loop conn_Close (conns i) EmptyString w closed)
    as [errS closed'].
  simpl in Htext. subst errS. rewrite <- Hempty.
  destruct (String.eqb_spec tail EmptyString) as [Heq|Hne]; simpl.
  - split; auto.
  - split; [discriminate|contradiction].
Qed.

(** X3.  When the close of a connection fails with a text that is not
    empty, [Close] returns an error; its text starts with the fixed phrase
    and contains the text of the failed close. *)
Theorem Close_reports_every_failure
        (conn_Close : list event -> list Client -> Client -> option error)
        (i : InfluxDB) (w : World) (closed : list Client)
        pre c post err :
  conns i = pre ++ c :: post ->
  conn_Close (trace w) (closed ++ pre) c = Some err ->
  Error err <> EmptyString ->
  exists e,
    fst (Close conn_Close i w closed) = Some e /\
    strings.HasPrefix (Error e) "output influxdb close failed: " = true /\
    strings.Contains (Error e) (Error err) = true.
Proof.
  intros Hc Hans Hne. unfold Close.
  destruct (close_loop_text conn_Close (conns i) EmptyString w closed)
    as (tail & Htext & Hempty & Hall).
  destruct (close_loop conn_Close (conns i) EmptyString w closed)
    as [errS closed'].
  simpl in Htext. subst errS.
  destruct (String.eqb_spec tail EmptyString) as [Heq|Hne'].
  - exfalso. apply Hne. exact (proj1 Hempty Heq _ _ _ _ Hc Hans).
  - exists (close_failed tail). split; [reflexivity|]. split.
    + unfold strings.HasPrefix.
      change (Error (close_failed tail))
        with ("output influxdb close failed: " ++ tail)%string.
      apply prefix_app.
    + change (Error (close_failed tail))
        with ("output influxdb close failed: " ++ tail)%string.
      apply Contains_skip. exact (Hall _ _ _ _ Hc Hans).
Qed.

(** The second of three connections is to a dead host. *)
Lemma Close_reports_every_failure_witness :
  let i := Demo.pool []
                     [Demo.http "http://a:8086"; Demo.udp "down:8089";
                      Demo.udp "b:8089"] in
  let err := errorString "use of closed network connection" in
  exists e,
    fst (Close Shutdown.close_answer i Demo.start []) = Some e /\
    strings.HasPrefix (Error e) "output influxdb close failed: " = true /\
    strings.Contains (Error e) (Error err) = true.
Proof.
  intros i err.
  apply (Close_reports_every_failure
           Shutdown.close_answer i Demo.start []
           [Demo.http "http://a:8086"] (Demo.udp "down:8089")
           [Demo.udp "b:8089"] err).
  - reflexivity.
  - reflexivity.
  - discriminate.
Defined.

(** ** Build and shutdown *)




(** ** Startup *)

Section Startup.

Variable E : Env.

(** [Connect] returns at the first URL a constructor or [url.Parse]
    refuses. *)
Lemma Connect_returns_at_refused
      (i : InfluxDB) (w : World) pre u post err cs1 i1 w1 :
  connect_urls i = pre ++ u :: post ->
  connect_loop E pre [] i w = (inr cs1, i1, w1) ->
  unparsable E i u err ->
  exists w2, Connect E i w = (Some err, i1, w2) /\ conns i1 = conns i.
Proof.
  intros Hurls Hpre Hbad.
  destruct (connect_loop_frame E _ _ _ _ _ _ _ Hpre) as (Hs & Hc & _ & _).
  unfold Connect. rewrite Hurls, connect_loop_app, Hpre.
  rewrite connect_loop_unfold_defaulted.
  unfold unparsable in Hbad.
  destruct (strings.HasPrefix u "udp").
  - rewrite Hbad. eauto.
  - unfold NewHTTPClient. fold (http_config i1 u).
    rewrite (same_settings_http_config _ _ u Hs), Hbad. eauto.
Qed.

Lemma transport_for_defaulted (i : InfluxDB) (u : string) :
  transport_for E (defaulted E i) u = transport_for E i u.
Proof.
  unfold transport_for.
  rewrite effective_defaulted.
  rewrite (same_settings_http_config _ _ u (proj1 (defaulted_settings E i))).
  reflexivity.
Qed.

(** When no constructor refuses, the loop constructs the transport of each
    URL, in the order of the list. *)
Lemma connect_loop_transports (urls : list string) :
  forall cs i w,
    (forall u, In u urls -> constructible E i u) ->
    exists cs' i' w' evs,
      connect_loop E urls cs i w = (inr cs', i', w') /\
      trace w' = trace w ++ evs /\
      map Some (constructed evs) = map (transport_for E i) urls.
Proof.
  induction urls as [|u rest IH]; intros cs i w Hall.
  - exists cs, i, w, []. rewrite app_nil_r. auto.
  - rewrite connect_loop_unfold_defaulted.
    pose proof (Hall u (or_introl eq_refl)) as Hu.
    unfold constructible in Hu.
    assert (Hrest : forall i1,
               same_settings i i1 ->
               effective_payload E i1 = effective_payload E i ->
               forall u', In u' rest -> constructible E i1 u').
    { intros i1 Hs He u' Hin. apply (constructible_frame E i); auto.
      apply Hall. now right. }
    assert (Hhead : forall ev evs,
               transport_for E i u = Some ev ->
               map Some (constructed evs) = map (transport_for E i) rest ->
               Some ev :: map Some (constructed evs)
               = map (transport_for E i) (u :: rest)).
    { intros ev evs Hev Hmap. simpl. now rewrite Hev, Hmap. }
    destruct (strings.HasPrefix u "udp") eqn:Hp.
    + destruct Hu as (pu & Hparse & Hudp). rewrite Hparse.
      unfold NewUDPClient. rewrite defaulted_payload, Hudp.
      destruct (IH (cs ++ [UDP {| Addr := Host pu;
                                  PayloadSize := effective_payload E i |}])
                   (defaulted E i)
                   (emit (EvNewUDPClient
                            {| Addr := Host pu;
                               PayloadSize := effective_payload E i |}) w))
        as (cs' & i' & w' & evs & Hrun & Ht & Hmap).
      { apply Hrest; [apply defaulted_settings|apply effective_defaulted]. }
      exists cs', i', w', (EvNewUDPClient
                             {| Addr := Host pu;
                                PayloadSize := effective_payload E i |} :: evs).
      rewrite Hrun, Ht. simpl trace. rewrite <- app_assoc.
      split; [reflexivity|]. split; [reflexivity|].
      apply Hhead.
      * unfold transport_for. now rewrite Hp, Hparse.
      * rewrite Hmap. apply map_ext. apply transport_for_defaulted.
    + unfold NewHTTPClient. fold (http_config i u). rewrite Hu.
      unfold createDatabase, Query_, log.
      destruct (conn_Query E _ _ _) as [e|];
        match goal with
        | |- context [connect_loop E rest ?c i ?w0] =>
          destruct (IH c i w0 (Hrest i (same_settings_refl i) eq_refl))
            as (cs' & i' & w' & evs & Hrun & Ht & Hmap)
        end.
      * exists cs', i', w'. eexists (_ :: _ :: _ :: evs).
        rewrite Hrun, Ht. simpl trace. rewrite <- !app_assoc.
        split; [reflexivity|]. split; [reflexivity|].
        apply Hhead; [|assumption].
        unfold transport_for. now rewrite Hp.
      * exists cs', i', w'. eexists (_ :: _ :: evs).
        rewrite Hrun, Ht. simpl trace. rewrite <- !app_assoc.
        split; [reflexivity|]. split; [reflexivity|].
        apply Hhead; [|assumption].
        unfold transport_for. now rewrite Hp.
Qed.

Lemma defaulted_set_conns (i : InfluxDB) (cs : list Client) :
  defaulted E (set_conns i cs) = set_conns (defaulted E i) cs.
Proof.
  unfold defaulted. simpl. destruct (UDPPayload i =? 0)%Z; reflexivity.
Qed.

(** The loop does not read the pool of the struct. *)
Lemma connect_loop_set_conns (urls : list string) :
  forall acc i w old,
    connect_loop E urls acc (set_conns i old) w =
    let '(r, i1, w1) := connect_loop E urls acc i w in
    (r, set_conns i1 old, w1).
Proof.
  induction urls as [|u rest IH]; intros acc i w old; [reflexivity|].
  rewrite !connect_loop_unfold_defaulted.
  destruct (strings.HasPrefix u "udp").
  - destruct (url_Parse E u); [reflexivity|].
    rewrite defaulted_set_conns.
    change (UDPPayload (set_conns (defaulted E i) old))
      with (UDPPayload (defaulted E i)).
    destruct (NewUDPClient E _ w) as [[err|c] w1]; [reflexivity|apply IH].
  - cbn [set_conns iUsername iPassword iUserAgent iTimeout iDatabase].
    destruct (NewHTTPClient E _ w) as [[err|c] w1]; [reflexivity|].
    destruct (createDatabase E c (iDatabase i) w1) as [[err|] w2]; apply IH.
Qed.

End Startup.

(** X5.  [Init] ends the process when [Connect] returns an error: a URL
    that cannot be parsed is fatal at startup, the message printed is the
    fixed phrase followed by the text of the error, and the pool has not
    been set. *)
Theorem Init_exits_on_refused_url
        (E : Env) (i : InfluxDB) (w : World) pre u post err cs1 i1 w1 :
  connect_urls i = pre ++ u :: post ->
  connect_loop E pre [] i w = (inr cs1, i1, w1) ->
  unparsable E i u err ->
  exists w2,
    Init E i w =
    (Exited ("InfluxDB Connect failed, err message is " ++ Error err),
     i1, w2) /\
    conns i1 = conns i.
Proof.
  intros Hurls Hpre Hbad.
  destruct (Connect_returns_at_refused E i w _ _ _ _ _ _ _ Hurls Hpre Hbad)
    as (w2 & Hc & Hconns).
  exists w2. unfold Init. rewrite Hc. auto.
Qed.

(** A stream URL with a bad escape after a good one. *)
Lemma Init_exits_on_refused_url_witness :
  let i := Demo.config ["http://a:8086"; "http://%zz"] in
  exists w2,
    Init Demo.env i Demo.start =
    (Exited ("InfluxDB Connect failed, err message is "
               ++ Error (errorString "parse: invalid URL escape")),
     i, w2) /\
    conns i = conns i.
Proof.
  intros i.
  apply (Init_exits_on_refused_url
           Demo.env i Demo.start ["http://a:8086"] "http://%zz" []
           (errorString "parse: invalid URL escape")
           [Demo.http "http://a:8086"] i
           (snd (connect_loop Demo.env ["http://a:8086"] [] i Demo.start))).
  - reflexivity.
  - vm_compute. reflexivity.
  - reflexivity.
Defined.

(** X6.  Failed schema creations are not fatal at startup: when no
    constructor refuses its URL, [Init] returns however the creation queries
    are answered, with the accepted connections as the pool, which may be
    empty. *)
Theorem Init_tolerates_failed_schema_creation
        (E : Env) (i : InfluxDB) (w : World) :
  (forall u, In u (connect_urls i) -> constructible E i u) ->
  exists i' w' evs,
    Init E i w = (Running, i', w') /\
    trace w' = trace w ++ evs /\
    conns i' = accepted evs /\
    List.length (constructed evs) = List.length (connect_urls i).
Proof.
  intros Hall.
  destruct (connect_loop_constructs E (connect_urls i) [] i w Hall)
    as (cs' & i1 & w1 & evs & Hrun & Ht & Hlen).
  destruct (Connect E i w) as [[r i'] w'] eqn:Hc.
  destruct (Connect_events E _ _ _ _ _ Hc)
    as (evs0 & built & a & Ht0 & Hev & _ & _ & _ & Hres).
  unfold Connect in Hc. rewrite Hrun in Hc. inversion Hc; subst.
  simpl in Ht0. rewrite Ht in Ht0. apply app_inv_head in Ht0. subst evs0.
  destruct Hres as (-> & Hbuilt & _).
  exists (set_conns i1 cs'), (set_rng w1 (time_Now_UnixNano E (trace w1))), evs.
  unfold Init, Connect. rewrite Hrun.
  split; [reflexivity|]. split; [assumption|]. split; [|assumption].
  rewrite Hbuilt. symmetry. eapply connect_events_accepted; eauto.
Qed.

(** Two stream endpoints that refuse the creation query. *)
Lemma Init_tolerates_failed_schema_creation_witness :
  let i := Demo.config ["http://down:8086"; "http://down:8087"] in
  exists i' w' evs,
    Init Demo.env i Demo.start = (Running, i', w') /\
    trace w' = trace Demo.start ++ evs /\
    conns i' = accepted evs /\
    List.length (constructed evs) = List.length (connect_urls i).
Proof.
  intros i.
  apply (Init_tolerates_failed_schema_creation Demo.env i Demo.start).
  intros u [<-|[<-|[]]]; reflexivity.
Defined.

(** ** More on the pool builder *)

(** X7.  When no constructor refuses its URL, [Connect] returns [nil] and
    has constructed exactly one transport per URL, in the order of [URLs]
    with the single [URL] of old configurations last when it is set: a
    datagram client for the parsed host with the effective payload size, a
    stream client for the URL as written with the credentials, user agent
    and timeout of the struct. *)
Theorem Connect_constructs_in_order
        (E : Env) (i : InfluxDB) (w : World) r i' w' evs :
  (forall u, In u (connect_urls i) -> constructible E i u) ->
  Connect E i w = (r, i', w') ->
  trace w' = trace w ++ evs ->
  r = None /\
  map Some (constructed evs) =
  map (transport_for E i)
      (URLs i ++ (if String.eqb (URL i) EmptyString then [] else [URL i])).
Proof.
  intros Hall H Ht.
  destruct (connect_loop_transports E (connect_urls i) [] i w Hall)
    as (cs' & i1 & w1 & evs1 & Hrun & Ht1 & Hmap).
  unfold Connect in H. rewrite Hrun in H. inversion H; subst.
  simpl in Ht. rewrite Ht1 in Ht. apply app_inv_head in Ht. subst evs1.
  split; [reflexivity|]. rewrite Hmap, connect_urls_eq. reflexivity.
Qed.

(** A list of two URLs and the single URL of an old configuration. *)
Lemma Connect_constructs_in_order_witness :
  let i := set_UDPPayload
             {| URL := "http://old:8086";
                URLs := ["udp://b:8089"; "http://a:8086"];
                iUsername := "telegraf"; iPassword := "secret";
                iDatabase := "telegraf"; iUserAgent := "telegraf";
                iRetentionPolicy := EmptyString; iWriteConsistency := "any";
                iTimeout := 5000000000; UDPPayload := 0;
                Precision := EmptyString; conns := [] |} 1024 in
  let run := Connect Demo.env i Demo.start in
  fst (fst run) = None /\
  map Some (constructed (trace (snd run))) =
  map (transport_for Demo.env i)
      (URLs i ++ (if String.eqb (URL i) EmptyString then [] else [URL i])).
Proof.
  intros i run.
  apply (Connect_constructs_in_order
           Demo.env i Demo.start (fst (fst run)) (snd (fst run)) (snd run)
           (trace (snd run))).
  - intros u [<-|[<-|[<-|[]]]].
    + exists {| Host := "b:8089" |}. split; reflexivity.
    + reflexivity.
    + reflexivity.
  - vm_compute. reflexivity.
  - reflexivity.
Defined.

(** Every query of a build is the creation query, on a stream client that
    was constructed in that build. *)
Lemma connect_events_queries E db evs cs a :
  connect_events E db evs cs a ->
  forall c q,
    In (c, q) (queries evs) ->
    exists conf,
      c = HTTP conf /\ q = create_query db /\
      In (EvNewHTTPClient conf) evs.
Proof.
  induction 1 as [| |c0 evs cs a H IH|c0|c0 evs cs a Hc H IH
                  |c0 e0 evs cs a Hc H IH|c0 Hc];
    intros c q Hin; simpl in Hin; try contradiction.
  - destruct (IH _ _ Hin) as (conf & -> & -> & Hev).
    exists conf. simpl. auto 10.
  - destruct Hin as [Hin|Hin].
    + inversion Hin; subst. exists c0. simpl. auto 10.
    + destruct (IH _ _ Hin) as (conf & -> & -> & Hev).
      exists conf. simpl. auto 10.
  - destruct Hin as [Hin|Hin].
    + inversion Hin; subst. exists c0. simpl. auto 10.
    + destruct (IH _ _ Hin) as (conf & -> & -> & Hev).
      exists conf. simpl. auto 10.
Qed.

(** X8.  [Connect] writes no batch, and the only thing it sends is the
    creation query for the configured database, to stream clients it has
    just constructed: a datagram endpoint is never contacted while the pool
    is built. *)
Theorem Connect_contacts_only_stream_clients
        (E : Env) (i : InfluxDB) (w : World) r i' w' evs :
  Connect E i w = (r, i', w') ->
  trace w' = trace w ++ evs ->
  written_to evs = [] /\
  forall c q,
    In (c, q) (queries evs) ->
    exists conf,
      c = HTTP conf /\
      q = {| Command := create_database_command (iDatabase i) |} /\
      In (EvNewHTTPClient conf) evs.
Proof.
  intros H Ht.
  destruct (Connect_events E _ _ _ _ _ H)
    as (evs0 & built & a & Ht0 & Hev & _).
  rewrite Ht in Ht0. apply app_inv_head in Ht0. subst evs0.
  split.
  - eapply connect_events_writes; eauto.
  - intros c q Hin.
    exact (connect_events_queries _ _ _ _ _ Hev c q Hin).
Qed.

(** A datagram endpoint between two stream endpoints. *)
Lemma Connect_contacts_only_stream_clients_witness :
  let i := Demo.config ["http://a:8086"; "udp://b:8089"; "http://down:8086"] in
  let run := Connect Demo.env i Demo.start in
  let q := {| Command := create_database_command "telegraf" |} in
  written_to (trace (snd run)) = [] /\
  exists conf,
    Demo.http "http://a:8086" = HTTP conf /\
    q = {| Command := create_database_command (iDatabase i) |} /\
    In (EvNewHTTPClient conf) (trace (snd run)).
Proof.
  intros i run q.
  destruct (Connect_contacts_only_stream_clients
              Demo.env i Demo.start (fst (fst run)) (snd (fst run)) (snd run)
              (trace (snd run))) as [Hw Hq].
  - vm_compute. reflexivity.
  - reflexivity.
  - split; [exact Hw|].
    apply (Hq (Demo.http "http://a:8086") q).
    vm_compute. left. reflexivity.
Defined.

(** X9.  [Connect] builds from the configuration alone.  The connections
    already in the struct have no influence on the build; when [Connect]
    returns [nil] they are replaced by the new pool, and when it returns an
    error they stay where they were. *)
Theorem Connect_ignores_old_pool
        (E : Env) (i : InfluxDB) (w : World) (old : list Client) :
  Connect E (set_conns i old) w =
  match Connect E i w with
  | (None, i', w') => (None, i', w')
  | (Some err, i', w') => (Some err, set_conns i' old, w')
  end.
Proof.
  unfold Connect.
  change (connect_urls (set_conns i old)) with (connect_urls i).
  rewrite connect_loop_set_conns.
  destruct (connect_loop E (connect_urls i) [] i w) as [[[err|cs] i1] w1];
    reflexivity.
Qed.

(** ** More on the write path *)

Section WritePath.

Variable E : Env.

(** The encoder appends the point of each metric, in order, and leaves the
    settings of the batch alone. *)
Lemma encode_loop_points (ms : list Metric) :
  forall bp w bp' w',
    encode_loop E ms bp w = (inr bp', w') ->
    bp_conf bp' = bp_conf bp /\
    map (@inr error Point) (bp_points bp') =
    map (@inr error Point) (bp_points bp) ++ map (point_of E) ms.
Proof.
  induction ms as [|m ms IH]; simpl; intros bp w bp' w' H.
  - inversion H; subst. now rewrite app_nil_r.
  - unfold point_of at 1.
    destruct (client_NewPoint E (Name m) (Tags m) (Fields m) (Time m))
      as [err|pt]; [discriminate|].
    apply IH in H. destruct H as [Hc Hp]. split; [exact Hc|].
    rewrite Hp. simpl. rewrite map_app, <- app_assoc. reflexivity.
Qed.

(** The second half of [Write], without the contract of [rand.Perm]: log
    entries, then a dispatch trace, which is empty when the encoder
    returned an error. *)
Lemma write_batch_trace (i : InfluxDB) (m : Metrics) (w : World) o i' w' :
  write_batch E i m w = (o, i', w') ->
  i' = i /\
  exists logs bp cs evd b,
    trace w' = trace w ++ logs ++ evd /\
    forallb is_log logs = true /\
    dispatch_events (iDatabase i) bp cs evd b /\
    bp_conf bp = batch_config i /\
    (evd <> [] ->
     map (@inr error Point) (bp_points bp) = map (point_of E) (Data m)).
Proof.
  unfold write_batch, NewBatchPoints. intros H.
  set (bp0 := {| bp_conf := batch_config i; bp_points := [] |}) in *.
  destruct (batch_points_error E (batch_config i)) as [e|].
  - inversion H; subst. split; [reflexivity|].
    exists [], bp0, [], [], false. rewrite !app_nil_r.
    repeat split; try constructor. intros Hne. now elim Hne.
  - destruct (encode_loop E (Data m) bp0 w) as [[err|bp] w1] eqn:Henc.
    + inversion H; subst.
      destruct (encode_loop_events E _ _ _ _ _ Henc) as (logs & Ht & _ & Hl).
      split; [reflexivity|].
      exists logs, bp0, [], [], false. rewrite app_nil_r.
      repeat split; try constructor; auto. intros Hne. now elim Hne.
    + destruct (encode_loop_events E _ _ _ _ _ Henc) as (logs & Ht & _ & Hl).
      destruct (encode_loop_points _ _ _ _ _ Henc) as [Hconf Hpts].
      destruct (rand_Perm E (rng w1) (List.length (conns i))) as [p r].
      destruct (write_loop E p i bp (Some pool_exhausted) (set_rng w1 r))
        as [o1 w2] eqn:Hloop.
      inversion H; subst.
      destruct (write_loop_events E _ _ _ _ _ _ _ Hloop)
        as (k & cs & evd & b & Ht2 & _ & Hd & _).
      split; [reflexivity|].
      exists logs, bp, cs, evd, b. simpl in Ht2.
      rewrite Ht2, Ht, <- app_assoc.
      repeat split; auto.
Qed.

(** Every write of a dispatch trace carries the batch of the trace. *)
Lemma dispatch_events_batches db bp cs evs b :
  dispatch_events db bp cs evs b ->
  forall bp', In bp' (batches evs) -> bp' = bp.
Proof.
  induction 1 as [|c|c e rq cs evs b H IH]; intros bp' Hin.
  - contradiction.
  - destruct Hin as [<-|[]]. reflexivity.
  - unfold batches in Hin. rewrite flat_map_app in Hin.
    apply in_app_or in Hin. destruct Hin as [Hin|Hin].
    + unfold failed_attempt, recreate_events in Hin.
      destruct (strings.Contains (Error e) "database not found");
        [destruct rq|]; simpl in Hin;
        destruct Hin as [<-|[]]; reflexivity.
    + apply IH. exact Hin.
Qed.

Lemma batches_event (pre post : list event) c bp r :
  In bp (batches (pre ++ EvWrite c bp r :: post)).
Proof.
  unfold batches. rewrite flat_map_app. apply in_or_app. right.
  simpl. now left.
Qed.

Lemma queries_app (a b : list event) :
  queries (a ++ b) = queries a ++ queries b.
Proof. apply flat_map_app. Qed.

Lemma logs_queries (t : list event) :
  forallb is_log t = true -> queries t = [].
Proof.
  induction t as [|ev t IH]; simpl; [reflexivity|].
  destruct ev; simpl; try discriminate. exact IH.
Qed.

(** An event of a query lies after any stretch that asked nothing. *)
Lemma query_event_after (t d pre post : list event) c q r :
  queries t = [] ->
  t ++ d = pre ++ EvQuery c q r :: post ->
  exists pre', pre = t ++ pre' /\ d = pre' ++ EvQuery c q r :: post.
Proof.
  revert pre. induction t as [|x t IH]; intros pre Ht Heq.
  - exists pre. auto.
  - destruct pre as [|y pre].
    + simpl in Heq. inversion Heq; subst. discriminate.
    + simpl in Heq. inversion Heq; subst.
      assert (Ht' : queries t = []).
      { unfold queries in Ht. simpl in Ht. now apply app_eq_nil in Ht. }
      destruct (IH pre Ht' H1) as (pre' & -> & ->).
      exists pre'. auto.
Qed.

(** In a dispatch trace a query comes right after a write that failed with
    the not-found text on the same connection and after its log entry, and
    it is the creation query. *)
Lemma dispatch_events_query db bp cs evs b :
  dispatch_events db bp cs evs b ->
  forall pre c q r post,
    evs = pre ++ EvQuery c q r :: post ->
    exists pre' e,
      pre = pre' ++ [EvWrite c bp (Some e);
                     EvLog (VLogError "InfluxDB Write" e)] /\
      strings.Contains (Error e) "database not found" = true /\
      q = {| Command := create_database_command db |}.
Proof.
  induction 1 as [|c0|c0 e0 rq0 cs evs b H IH]; intros pre c q r post Heq.
  - destruct pre; discriminate.
  - destruct pre as [|x [|y pre]]; discriminate.
  - unfold failed_attempt in Heq.
    destruct pre as [|x [|y pre]]; try discriminate.
    simpl in Heq. inversion Heq as [[Hx Hy Hrest]]. clear Heq.
    subst x y.
    assert (Hlater : forall t pre0,
               queries t = [] ->
               t ++ evs = pre0 ++ EvQuery c q r :: post ->
               forall front,
               exists pre' e,
                 front ++ pre0
                 = pre' ++ [EvWrite c bp (Some e);
                            EvLog (VLogError "InfluxDB Write" e)] /\
                 strings.Contains (Error e) "database not found" = true /\
                 q = {| Command := create_database_command db |}).
    { intros t pre0 Hq Ht front.
      destruct (query_event_after _ _ _ _ _ _ _ Hq Ht) as (pre1 & -> & Hev).
      destruct (IH _ _ _ _ _ Hev) as (pre' & e & -> & Hc & Hcmd).
      exists (front ++ t ++ pre'), e.
      rewrite <- !app_assoc. auto. }
    destruct (strings.Contains (Error e0) "database not found") eqn:Hnf.
    + unfold recreate_events in Hrest. destruct pre as [|z pre].
      * simpl in Hrest. inversion Hrest; subst.
        exists [], e0. split; [reflexivity|split; [assumption|reflexivity]].
      * simpl in Hrest. inversion Hrest as [[Hz Hrest']]. subst z.
        assert (Hq : queries
                       (match rq0 with
                        | Some errc =>
                          [EvLog (VLogError (not_found_message db) errc)]
                        | None => []
                        end) = [])
          by (destruct rq0; reflexivity).
        destruct (Hlater _ _ Hq Hrest'
                         [EvWrite c0 bp (Some e0);
                          EvLog (VLogError "InfluxDB Write" e0);
                          EvQuery c0
                                  {| Command := create_database_command db |}
                                  rq0])
          as (pre' & e & Hpre & Hc & Hcmd).
        exists pre', e. split; [exact Hpre|split; assumption].
    + destruct (Hlater [] _ eq_refl Hrest
                       [EvWrite c0 bp (Some e0);
                        EvLog (VLogError "InfluxDB Write" e0)])
        as (pre' & e & Hpre & Hc & Hcmd).
      exists pre', e. split; [exact Hpre|split; assumption].
Qed.

(** A connection that accepts whatever it is sent stops the loop with a
    delivery, however the candidates before it answer. *)
Lemma write_loop_reaches_healthy (p : list nat) :
  forall i bp err w n c,
    (forall k, In k p -> k < List.length (conns i)) ->
    In n p ->
    nth_error (conns i) n = Some c ->
    (forall h b, conn_Write E h c b = None) ->
    exists w', write_loop E p i bp err w = (Return None, w').
Proof.
  induction p as [|n0 rest IH]; intros i bp err w n c Hrange Hin Hn Hok.
  - contradiction.
  - simpl.
    destruct (nth_error (conns i) n0) as [c0|] eqn:Hn0.
    + unfold Write_.
      destruct (conn_Write E (trace w) c0 bp) as [e|] eqn:Hans; [|eauto].
      apply (IH i bp err _ n c);
        [intros k Hk; apply Hrange; now right| |exact Hn|exact Hok].
      destruct Hin as [Heq|Hin]; [|assumption].
      exfalso. subst n0. rewrite Hn in Hn0. inversion Hn0; subst.
      rewrite Hok in Hans. discriminate.
    + apply nth_error_None in Hn0.
      specialize (Hrange n0 (or_introl eq_refl)). lia.
Qed.

End WritePath.

(** X10.  When the pool is at hand, the batch encodes and one connection
    of the pool accepts whatever it is sent, [Write] returns [nil], however
    the other connections answer: the loop walks the whole permutation until
    a write succeeds. *)
Theorem Write_succeeds_with_a_healthy_connection
        (E : Env) (i : InfluxDB) (m : Metrics) (w : World) i1 w1 c :
  perm_contract E ->
  reconnect E i w = (None, i1, w1) ->
  batch_points_error E (batch_config i1) = None ->
  forallb (encodable E) (Data m) = true ->
  In c (conns i1) ->
  (forall h b, conn_Write E h c b = None) ->
  exists w', Write E i m w = (Return None, i1, w').
Proof.
  intros Hperm Hrec Hbp Henc Hin Hok.
  rewrite Write_unfold, Hrec. unfold write_batch, NewBatchPoints.
  rewrite Hbp.
  destruct (encode_loop_accepts E _ Henc
              {| bp_conf := batch_config i1; bp_points := [] |} w1)
    as (bp & w2 & Hrun).
  rewrite Hrun.
  pose proof (Hperm (rng w2) (List.length (conns i1))) as Hp.
  destruct (rand_Perm E (rng w2) (List.length (conns i1))) as [p r].
  simpl in Hp.
  destruct (In_nth_error _ _ Hin) as (n & Hn).
  assert (Hlt : n < List.length (conns i1))
    by (apply nth_error_Some; congruence).
  destruct (write_loop_reaches_healthy
              E p i1 bp (Some pool_exhausted) (set_rng w2 r) n c)
    as (w' & Hloop); auto.
  - intros k Hk. apply (Permutation_in _ Hp) in Hk.
    apply in_seq in Hk. lia.
  - apply (Permutation_in _ (Permutation_sym Hp)). apply in_seq. lia.
  - rewrite Hloop. eauto.
Qed.

(** A dead datagram endpoint, a stream endpoint without the database and a
    healthy one. *)
Lemma Write_succeeds_with_a_healthy_connection_witness :
  let i := Demo.pool []
                     [Demo.udp "down:8089"; Demo.http "http://nodb:8086";
                      Demo.http "http://a:8086"] in
  exists w',
    Write Demo.env i {| Data := [Demo.cpu] |} Demo.start
    = (Return None, i, w').
Proof.
  intros i.
  apply (Write_succeeds_with_a_healthy_connection
           Demo.env i {| Data := [Demo.cpu] |} Demo.start i Demo.start
           (Demo.http "http://a:8086")).
  - exact rotation_perm.
  - reflexivity.
  - reflexivity.
  - reflexivity.
  - simpl. auto.
  - reflexivity.
Defined.

(** X11.  Under the contract of [rand.Perm] a call of [Write] always
    returns: the index expression [i.conns[n]] is never out of range. *)
Theorem Write_never_panics
        (E : Env) (i : InfluxDB) (m : Metrics) (w : World) o i' w' :
  perm_contract E ->
  Write E i m w = (o, i', w') ->
  exists err, o = Return err.
Proof.
  intros Hperm H. rewrite Write_unfold in H.
  destruct (reconnect E i w) as [[[e|] i1] w1].
  - inversion H; subst. eauto.
  - destruct (write_batch_events E _ _ _ _ _ _ Hperm H)
      as (_ & logs & _ & [Hearly|Hrun]).
    + destruct Hearly as (e & -> & _). eauto.
    + destruct Hrun as (_ & _ & bp & k & cs & evs & b & Hrun).
      cbv zeta in Hrun. destruct Hrun as (_ & _ & _ & _ & _ & -> & _).
      eauto.
Qed.

Lemma Write_never_panics_witness :
  let run := Write Demo.env
                   (Demo.config ["http://nodb:8086"; "udp://down:8089"])
                   {| Data := [Demo.cpu] |} Demo.start in
  exists err, fst (fst run) = Return err.
Proof.
  intros run.
  apply (Write_never_panics
           Demo.env (Demo.config ["http://nodb:8086"; "udp://down:8089"])
           {| Data := [Demo.cpu] |} Demo.start
           (fst (fst run)) (snd (fst run)) (snd run)).
  - exact rotation_perm.
  - vm_compute. reflexivity.
Defined.



(** X13.  After the reconnection, if there was one, the only query a call
    of [Write] sends is the creation query for the configured database, and
    only right after a write on the same connection failed with the
    not-found text and was logged: no other failure triggers a query. *)
Theorem Write_queries_only_after_not_found
        (E : Env) (i : InfluxDB) (m : Metrics) (w : World)
        ce i1 w1 o i' w' evs :
  reconnect E i w = (ce, i1, w1) ->
  Write E i m w = (o, i', w') ->
  trace w' = trace w1 ++ evs ->
  forall pre c q r post,
    evs = pre ++ EvQuery c q r :: post ->
    exists pre' bp e,
      pre = pre' ++ [EvWrite c bp (Some e);
                     EvLog (VLogError "InfluxDB Write" e)] /\
      strings.Contains (Error e) "database not found" = true /\
      q = {| Command := create_database_command (iDatabase i') |}.
Proof.
  intros Hrec H Ht pre c q r post Heq.
  rewrite Write_unfold, Hrec in H.
  destruct ce as [err|].
  - inversion H; subst.
    rewrite <- (app_nil_r (trace w')) in Ht at 1.
    apply app_inv_head in Ht. destruct pre; discriminate.
  - destruct (write_batch_trace E _ _ _ _ _ _ H)
      as (-> & logs & bp & cs & evd & b & Ht' & Hl & Hd & _).
    rewrite Ht in Ht'. apply app_inv_head in Ht'. rewrite Ht' in Heq.
    apply query_event_after in Heq; [|now apply logs_queries].
    destruct Heq as (pre1 & -> & Hevd).
    destruct (dispatch_events_query _ _ _ _ _ Hd _ _ _ _ _ Hevd)
      as (pre' & e & -> & Hc & Hq).
    exists (logs ++ pre'), bp, e. rewrite <- app_assoc. auto.
Qed.

(** A refused write and a write answered with the not-found text: one
    query, after the second. *)
Lemma Write_queries_only_after_not_found_witness :
  let i := Demo.pool []
                     [Demo.udp "down:8089"; Demo.http "http://nodb:8086"] in
  let run := Write Demo.env i {| Data := [Demo.cpu] |} Demo.start in
  let c := Demo.http "http://nodb:8086" in
  let q := {| Command := create_database_command "telegraf" |} in
  exists pre' bp e,
    firstn 6 (trace (snd run))
    = pre' ++ [EvWrite c bp (Some e);
               EvLog (VLogError "InfluxDB Write" e)] /\
    strings.Contains (Error e) "database not found" = true /\
    q = {| Command :=
             create_database_command (iDatabase (snd (fst run))) |}.
Proof.
  intros i run c q.
  apply (Write_queries_only_after_not_found
           Demo.env i {| Data := [Demo.cpu] |} Demo.start
           None i Demo.start
           (fst (fst run)) (snd (fst run)) (snd run) (trace (snd run))
           eq_refl) with (r := None) (post := []).
  - vm_compute. reflexivity.
  - reflexivity.
  - vm_compute. reflexivity.
Defined.

(** X14.  Every write of a call hands over the same batch: its settings
    are the database, retention policy and write consistency of the struct,
    and its points are those [NewPoint] made of the metrics, all of them and
    in the order of the metrics. *)
Theorem Write_sends_the_encoded_batch
        (E : Env) (i : InfluxDB) (m : Metrics) (w : World) o i' w' evs :
  Write E i m w = (o, i', w') ->
  trace w' = trace w ++ evs ->
  forall pre c bp r post,
    evs = pre ++ EvWrite c bp r :: post ->
    bp_conf bp = batch_config i' /\
    map (@inr error Point) (bp_points bp) = map (point_of E) (Data m).
Proof.
  intros H Ht pre c bp r post Heq. rewrite Write_unfold in H.
  destruct (reconnect E i w) as [[ce i1] w1] eqn:Hrec.
  destruct (reconnect_events E _ _ _ _ _ Hrec)
    as (evc & Htc & Hwc & _ & _ & _).
  destruct ce as [err|].
  - inversion H; subst. rewrite Htc in Ht. apply app_inv_head in Ht.
    subst evc. exfalso. exact (no_write_event _ _ _ _ _ _ Hwc eq_refl).
  - destruct (write_batch_trace E _ _ _ _ _ _ H)
      as (-> & logs & bp0 & cs & evd & b & Ht' & Hl & Hd & Hconf & Hpts).
    rewrite Htc, <- app_assoc in Ht'. rewrite Ht in Ht'.
    apply app_inv_head in Ht'. rewrite Ht' in Heq.
    rewrite app_assoc in Heq.
    apply write_event_after in Heq.
    + destruct Heq as (pre' & _ & Hevd).
      assert (Hbp : bp = bp0).
      { apply (dispatch_events_batches _ _ _ _ _ Hd).
        rewrite Hevd. apply batches_event. }
      subst bp0. split; [assumption|]. apply Hpts.
      rewrite Hevd. destruct pre'; discriminate.
    + rewrite written_to_app, Hwc, (logs_written_to _ Hl). reflexivity.
Qed.

(** Two metrics, handed to the second candidate after the first failed. *)
Lemma Write_sends_the_encoded_batch_witness :
  let i := Demo.pool []
                     [Demo.udp "down:8089"; Demo.http "http://a:8086"] in
  let m := {| Data := [Demo.cpu; Demo.cpu] |} in
  let run := Write Demo.env i m Demo.start in
  let bp := {| bp_conf := batch_config i;
               bp_points := bp_points Demo.cpu_batch
                            ++ bp_points Demo.cpu_batch |} in
  bp_conf bp = batch_config (snd (fst run)) /\
  map (@inr error Point) (bp_points bp) = map (point_of Demo.env) (Data m).
Proof.
  intros i m run bp.
  apply (Write_sends_the_encoded_batch
           Demo.env i m Demo.start
           (fst (fst run)) (snd (fst run)) (snd run) (trace (snd run)))
    with (pre := firstn 6 (trace (snd run)))
         (c := Demo.http "http://a:8086") (r := None) (post := []).
  - vm_compute. reflexivity.
  - reflexivity.
  - vm_compute. reflexivity.
Defined.

(** X15.  A pool left empty is rebuilt at every call: when the pool is
    empty and no constructor refuses its URL, a call of [Compute] first
    constructs the transport of every configured URL again, in order, and
    takes the accepted connections as the pool; only then does it write, and
    it constructs nothing more. *)
Theorem Compute_rebuilds_an_empty_pool
        (E : Env) (i : InfluxDB) (m : Metrics) (w : World) o i' w' evs :
  conns i = [] ->
  (forall u, In u (connect_urls i) -> constructible E i u) ->
  Compute E i m w = (o, i', w') ->
  trace w' = trace w ++ evs ->
  exists evc rest,
    evs = evc ++ rest /\
    map Some (constructed evc) = map (transport_for E i) (connect_urls i) /\
    written_to evc = [] /\
    conns i' = accepted evc /\
    constructed rest = [].
Proof.
  intros Hnil Hall H Ht. unfold Compute in H.
  rewrite Write_unfold, (reconnect_empty E i w Hnil) in H.
  destruct (connect_loop_transports E (connect_urls i) [] i w Hall)
    as (cs' & i1 & w1 & evc & Hrun & Htc & Hmap).
  destruct (Connect E i w) as [[ce i2] w2] eqn:Hc.
  destruct (Connect_events E _ _ _ _ _ Hc)
    as (evs0 & built & a & Ht0 & Hev & _ & _ & _ & Hres).
  unfold Connect in Hc. rewrite Hrun in Hc. inversion Hc; subst.
  simpl in Ht0. rewrite Htc in Ht0. apply app_inv_head in Ht0. subst evs0.
  destruct Hres as (-> & Hbuilt & _).
  destruct (write_batch_trace E _ _ _ _ _ _ H)
    as (-> & logs & bp & cs & evd & b & Ht' & Hl & Hd & _).
  simpl in Ht'. rewrite Htc, <- app_assoc in Ht'. rewrite Ht in Ht'.
  apply app_inv_head in Ht'.
  exists evc, (logs ++ evd).
  split; [assumption|]. split; [assumption|].
  split; [eapply connect_events_writes; eauto|]. split.
  - rewrite Hbuilt. symmetry. eapply connect_events_accepted; eauto.
  - rewrite constructed_app, (logs_constructed _ Hl).
    eapply dispatch_events_constructed; eauto.
Qed.

(** A startup that left the pool empty, then a call: both endpoints are
    constructed again. *)
Lemma Compute_rebuilds_an_empty_pool_witness :
  let i := Demo.config ["http://down:8086"; "udp://b:8089"] in
  let m := {| Data := [Demo.cpu] |} in
  let run := Compute Demo.env i m Demo.start in
  exists evc rest,
    trace (snd run) = evc ++ rest /\
    map Some (constructed evc)
    = map (transport_for Demo.env i) (connect_urls i) /\
    written_to evc = [] /\
    conns (snd (fst run)) = accepted evc /\
    constructed rest = [].
Proof.
  intros i m run.
  apply (Compute_rebuilds_an_empty_pool
           Demo.env i m Demo.start
           (fst (fst run)) (snd (fst run)) (snd run) (trace (snd run))).
  - reflexivity.
  - intros u [<-|[<-|[]]].
    + reflexivity.
    + exists {| Host := "b:8089" |}. split; reflexivity.
  - vm_compute. reflexivity.
  - reflexivity.
Defined.
